(** * mmap-example: reading 64-bit integers from a memory-mapped file

    A shallow embedding of the three variants of the example program:

    - the naive reader, which dereferences the mapping directly
      (module [Naive]);
    - the POSIX reader of [read_mmap.cc], which wraps the dereference in
      [safe_mmap_try] (sigsetjmp / siglongjmp out of a SIGBUS handler);
    - the portable reader, whose [safe_mmap_try] and [open_file] are
      selected by [#if defined(_WIN32)]: structured exception handling on
      Windows, the POSIX code otherwise.

    The second and third variant share their POSIX text, so one set of
    definitions, parameterised by the build target, covers both.  Module
    [Concurrent] goes through the POSIX guarded read statement by
    statement, for several threads under a scheduler.

    Conventions.  [size_t] is a 64-bit unsigned integer, modelled as a [Z]
    with the wrap-around written out.  The address space is a finite map
    from addresses to cells.  [assert] is compiled in (the sources never
    define NDEBUG).  Signals, system calls and the C++ run time are not in
    the sources; the small kernel model below stands for them. *)

From stdpp Require Import gmap strings list fin_maps.

Open Scope Z_scope.

(** ** Machine integers and byte order *)

Definition two64 : Z := 2 ^ 64.

(** Arithmetic on [size_t] wraps modulo 2^64. *)
Definition size_t_wrap (z : Z) : Z := z mod two64.

Definition sizeof_int64_t : Z := 8.

Inductive byte_order := LittleEndian | BigEndian.

(** The unsigned value of a byte string, least significant byte first. *)
Fixpoint le_unsigned (bs : list Z) : Z :=
  match bs with
  | [] => 0
  | b :: bs' => b + 256 * le_unsigned bs'
  end.

Definition unsigned_of_bytes (o : byte_order) (bs : list Z) : Z :=
  match o with
  | LittleEndian => le_unsigned bs
  | BigEndian => le_unsigned (reverse bs)
  end.

(** Reinterpretation of a 64-bit pattern as [int64_t] (two's complement). *)
Definition to_int64 (u : Z) : Z :=
  if u <? 2 ^ 63 then u else u - two64.

Definition int64_of_bytes (o : byte_order) (bs : list Z) : Z :=
  to_int64 (unsigned_of_bytes o bs).

(** ** The address space *)

(** A mapped byte either still has its backing storage or has lost it
    (the file was truncated, the device went away).  An address absent
    from the map is not mapped at all. *)
Inductive cell :=
| Backed (b : Z)
| Lost.

Inductive fault :=
| BusError       (* the page is mapped, its storage is gone *)
| SegViolation.  (* nothing is mapped there *)

Inductive access :=
| Loaded (bs : list Z)
| Faulted (k : fault).

(** What the hardware does for a load of [n] bytes at [addr]: the bytes,
    or the fault of the first byte that cannot be read. *)
Fixpoint fetch (m : gmap Z cell) (addr : Z) (n : nat) : access :=
  match n with
  | O => Loaded []
  | S n' =>
      match m !! addr with
      | None => Faulted SegViolation
      | Some Lost => Faulted BusError
      | Some (Backed b) =>
          match fetch m (addr + 1) n' with
          | Loaded bs => Loaded (b :: bs)
          | Faulted k => Faulted k
          end
      end
  end.

Arguments fetch : simpl never.

Definition page_size : Z := 4096.

Definition round_up_page (n : Z) : Z :=
  (n + page_size - 1) / page_size * page_size.

(** Mapping [bs] at [addr]: one backed cell per byte. *)
Fixpoint back_cells (addr : Z) (bs : list Z) (m : gmap Z cell) : gmap Z cell :=
  match bs with
  | [] => m
  | b :: bs' => <[addr := Backed b]> (back_cells (addr + 1) bs' m)
  end.

(** The cells of [n] consecutive addresses are rewritten by [f]
    ([None] unmaps). *)
Fixpoint over_range (f : option cell) (addr : Z) (n : nat) (m : gmap Z cell)
  : gmap Z cell :=
  match n with
  | O => m
  | S n' =>
      let m' := over_range f (addr + 1) n' m in
      match f with
      | Some c => match m' !! addr with
                  | Some _ => <[addr := c]> m'
                  | None => m'
                  end
      | None => delete addr m'
      end
  end.

(** ** Signals, exceptions and the ways a process ends *)

Inductive signal := SIGABRT | SIGBUS | SIGSEGV.

(** Linux numbering; the handler receives the number as its [int c]. *)
Definition signum (s : signal) : Z :=
  match s with
  | SIGABRT => 6
  | SIGBUS => 7
  | SIGSEGV => 11
  end.

Definition EXCEPTION_ACCESS_VIOLATION : Z := 0xC0000005.
Definition EXCEPTION_IN_PAGE_ERROR : Z := 0xC0000006.

(** Disposition of SIGBUS: the default action, or the one handler the
    program ever installs. *)
Inductive disposition :=
| SIG_DFL
| Handler_handle_sigbus.

Inductive termination :=
| Signalled (s : signal)          (* default action of a signal *)
| UnhandledException (code : Z).  (* no SEH filter took the exception *)

(** A non-local transfer of control on its way to its target. *)
Inductive unwind :=
| LongJmp (target : option nat) (val : Z)  (* siglongjmp(buf, val) *)
| Seh (code : Z).                          (* a structured exception *)

(** ** Program state *)

(** The two [thread_local] variables of the calling thread.  Both are
    zero-initialised; the jump buffer is modelled by the identity of the
    [sigsetjmp] activation that filled it. *)
Record thread_locals := {
  sigbus_jmp_set : bool;
  sigbus_jmp_buf : option nat;
}.

Record inode := {
  contents : list Z;
  readable : bool;
  regular : bool;   (* a regular file: it has a size and can be mapped *)
}.

Inductive handle :=
| OpenFile (path : string)       (* a descriptor from open / CreateFile *)
| FileMapping (path : string).   (* a mapping object from CreateFileMapping *)

(** What the operating system keeps for the process. *)
Record kernel := {
  fs : gmap string inode;
  handles : gmap nat handle;
  handle_limit : nat;
  mem : gmap Z cell;
  views : gmap Z Z;  (* live mappings: base address and span *)
  next_map : Z;      (* where the next mapping is placed *)
  addr_limit : Z;    (* end of the usable address space *)
  sigbus_action : disposition;
}.

Inductive line :=
| Number (v : Z)       (* std::cout << value << std::endl *)
| Indeterminate        (* the same, of a variable never written *)
| Text (s : string).   (* std::cout << "..." << std::endl *)

(** Observable steps, newest first. *)
Inductive event :=
| EvStat (path : string)
| EvOpen (path : string)
| EvFileSize (h : nat)
| EvCreateMapping (h : nat)
| EvMmap (len : Z)
| EvMunmap (addr : Z)
| EvClose (h : nat)
| EvSigaction
| EvArm                 (* a recovery point is being set up *)
| EvLoad (addr : Z)     (* an 8-byte load is issued *)
| EvFault (k : fault)
| EvPrint (l : line).

Record state := {
  tls : thread_locals;
  os : kernel;
  trace : list event;
}.

Definition log (e : event) (st : state) : state :=
  {| tls := tls st; os := os st; trace := e :: trace st |}.

Definition set_jmp_set (b : bool) (st : state) : state :=
  {| tls := {| sigbus_jmp_set := b; sigbus_jmp_buf := sigbus_jmp_buf (tls st) |};
     os := os st; trace := trace st |}.

Definition set_jmp_buf (j : option nat) (st : state) : state :=
  {| tls := {| sigbus_jmp_set := sigbus_jmp_set (tls st); sigbus_jmp_buf := j |};
     os := os st; trace := trace st |}.

Definition set_os (k : kernel) (st : state) : state :=
  {| tls := tls st; os := k; trace := trace st |}.

Definition set_mem (m : gmap Z cell) (v : gmap Z Z) (k : kernel) : kernel :=
  {| fs := fs k; handles := handles k; handle_limit := handle_limit k;
     mem := m; views := v; next_map := next_map k;
     addr_limit := addr_limit k; sigbus_action := sigbus_action k |}.

Definition set_next_map (a : Z) (k : kernel) : kernel :=
  {| fs := fs k; handles := handles k; handle_limit := handle_limit k;
     mem := mem k; views := views k; next_map := a;
     addr_limit := addr_limit k; sigbus_action := sigbus_action k |}.

Definition set_handles (h : gmap nat handle) (k : kernel) : kernel :=
  {| fs := fs k; handles := h; handle_limit := handle_limit k;
     mem := mem k; views := views k; next_map := next_map k;
     addr_limit := addr_limit k; sigbus_action := sigbus_action k |}.

Definition set_sigbus_action (d : disposition) (k : kernel) : kernel :=
  {| fs := fs k; handles := handles k; handle_limit := handle_limit k;
     mem := mem k; views := views k; next_map := next_map k;
     addr_limit := addr_limit k; sigbus_action := d |}.

(** ** Outcomes of a computation *)

Inductive result (A : Type) :=
| Ok (a : A) (s : state)                 (* returned normally *)
| Unwinding (u : unwind) (s : state)     (* left by a non-local transfer *)
| Terminated (t : termination) (s : state)  (* the process is gone *)
| Spinning (s : state).  (* still restarting a faulting instruction *)

Arguments Ok {A} a s.
Arguments Unwinding {A} u s.
Arguments Terminated {A} t s.
Arguments Spinning {A} s.

(** Computations thread the state and stop at the first outcome that is
    not a normal return. *)
Definition M (A : Type) : Type := state → result A.

Definition ret {A} (a : A) : M A := fun st => Ok a st.

Definition bind {A B} (m : M A) (k : A → M B) : M B :=
  fun st =>
    match m st with
    | Ok a s => k a s
    | Unwinding u s => Unwinding u s
    | Terminated t s => Terminated t s
    | Spinning s => Spinning s
    end.

Notation "'let*' x ':=' m 'in' k" := (bind m (fun x => k))
  (at level 10, x pattern, m at level 100, k at level 200).

Definition gets {A} (f : state → A) : M A := fun st => Ok (f st) st.

Definition modify (f : state → state) : M unit := fun st => Ok tt (f st).

(** [assert(c)]: a failed assertion calls [abort], which raises SIGABRT;
    nothing in the program handles it. *)
Definition assert (c : bool) : M unit :=
  fun st => if c then Ok tt st else Terminated (Signalled SIGABRT) st.

(** ** Build targets *)

Inductive platform := Posix | Windows.

Record target := {
  platform_of : platform;   (* which side of [#if defined(_WIN32)] *)
  endian : byte_order;      (* the native byte order *)
  offsetof_size : Z;        (* offset of [file::size] inside a [file] *)
}.

(** [struct file]: its members [size] and [data], and the subclass
    that decides what the destructor does. *)
Inductive file_kind :=
| posix_file
| windows_file (win_handle : nat).

Record file := {
  f_size : Z;
  f_data : Z;
  f_kind : file_kind;
}.

Section Program.

Variable T : target.

(** How many times a faulting instruction is restarted after a handler
    returned before the model reports [Spinning]. *)
Variable restarts : nat.

(** *** The fault handler *)

(** [siglongjmp] leaves the handler for the activation recorded in
    [sigbus_jmp_buf]. *)
Definition handle_sigbus (c : Z) : M unit :=
  fun st =>
    if sigbus_jmp_set (tls st) then
      let st1 := set_jmp_set false st in
      Unwinding (LongJmp (sigbus_jmp_buf (tls st1)) c) st1
    else Ok tt st.

(** [sigaction(SIGBUS, &act, nullptr)].  With SA_NODEFER and an empty
    [sa_mask] SIGBUS is never blocked, neither inside the handler nor
    after the jump out of it, so no signal mask is kept. *)
Definition install_signal_handlers : M unit :=
  match platform_of T with
  | Windows => ret tt
  | Posix =>
      modify (fun st =>
        log EvSigaction
          (set_os (set_sigbus_action Handler_handle_sigbus (os st)) st))
  end.

Definition exception_code (k : fault) : Z :=
  match k with
  | BusError => EXCEPTION_IN_PAGE_ERROR
  | SegViolation => EXCEPTION_ACCESS_VIOLATION
  end.

(** A hardware fault on the running thread.  On POSIX it becomes a
    signal, dispatched by the disposition; the program installs a handler
    for SIGBUS only.  On Windows it becomes a structured exception.  [Ok]
    means that a handler ran and returned. *)
Definition deliver (k : fault) : M unit :=
  fun st =>
    let st1 := log (EvFault k) st in
    match platform_of T with
    | Windows => Unwinding (Seh (exception_code k)) st1
    | Posix =>
        match k with
        | SegViolation => Terminated (Signalled SIGSEGV) st1
        | BusError =>
            match sigbus_action (os st1) with
            | SIG_DFL => Terminated (Signalled SIGBUS) st1
            | Handler_handle_sigbus => handle_sigbus (signum SIGBUS) st1
            end
        end
    end.

(** One execution of an 8-byte load instruction.  When a handler ran and
    returned, the kernel resumes the thread at the instruction that
    faulted: [again]. *)
Definition load_once {A} (decode : list Z → A) (addr : Z) (again : M A) : M A :=
  fun st =>
    let st1 := log (EvLoad addr) st in
    match fetch (mem (os st1)) addr 8 with
    | Loaded bs => Ok (decode bs) st1
    | Faulted k =>
        match deliver k st1 with
        | Ok _ st2 => again st2
        | Unwinding u s => Unwinding u s
        | Terminated t s => Terminated t s
        | Spinning s => Spinning s
        end
    end.

Fixpoint restart {A} (decode : list Z → A) (fuel : nat) (addr : Z) : M A :=
  match fuel with
  | O => Spinning
  | S fuel' => load_once decode addr (restart decode fuel' addr)
  end.

Definition load_from {A} (decode : list Z → A) (fuel : nat) (addr : Z) : M A :=
  load_once decode addr (restart decode fuel addr).

(** [*(int64_t * )p] *)
Definition load_int64 (addr : Z) : M Z :=
  load_from (int64_of_bytes (endian T)) restarts addr.

(** [*(size_t * )p] *)
Definition load_size_t (addr : Z) : M Z :=
  load_from (unsigned_of_bytes (endian T)) restarts addr.

(** *** safe_mmap_try *)

(** What [sigsetjmp] yields when [siglongjmp(buf, c)] re-enters it. *)
Definition sigsetjmp_value (c : Z) : Z := if c =? 0 then 1 else c.

(** The two branches of [if (sigsetjmp(sigbus_jmp_buf, 0) == 0)], as a
    function of what [sigsetjmp] returned. *)
Definition after_sigsetjmp {A} (fn : M A) (rv : Z) : M (bool * option A) :=
  if rv =? 0 then
    let* a := fn in
    let* _ := modify (set_jmp_set false) in
    ret (true, Some a)
  else
    let* _ := modify (set_jmp_set false) in
    ret (false, None).

(** The result pairs the returned [bool] with what the lambda produced
    when it ran to its end. *)
Definition safe_mmap_try {A} (fn : M A) : M (bool * option A) :=
  match platform_of T with
  | Windows =>
      fun st =>
        match fn (log EvArm st) with
        | Ok a s => Ok (true, Some a) s
        | Unwinding (Seh code) s =>
            if code =? EXCEPTION_IN_PAGE_ERROR then Ok (false, None) s
            else Unwinding (Seh code) s
        | Unwinding u s => Unwinding u s
        | Terminated t s => Terminated t s
        | Spinning s => Spinning s
        end
  | Posix =>
      let* armed := gets (fun st => sigbus_jmp_set (tls st)) in
      let* _ := assert (negb armed) in
      let* _ := modify (set_jmp_set true) in
      fun st =>
        let me := length (trace st) in
        let st1 := log EvArm (set_jmp_buf (Some me) st) in
        match after_sigsetjmp fn 0 st1 with
        | Unwinding (LongJmp target c) s =>
            if decide (target = Some me)
            then after_sigsetjmp fn (sigsetjmp_value c) s
            else Unwinding (LongJmp target c) s
        | r => r
        end
  end.

(** *** file::read *)

(** [(int8_t * )data + offset] *)
Definition ptr_add (base offset : Z) : Z := size_t_wrap (base + offset).

Definition read (f : file) (offset : Z) (result : option Z)
  : M (bool * option Z) :=
  let* _ := assert (offset <=? size_t_wrap (f_size f - sizeof_int64_t)) in
  let* r := safe_mmap_try (load_int64 (ptr_add (f_data f) offset)) in
  match r with
  | (b, Some v) => ret (b, Some v)   (* the lambda stored into *result *)
  | (b, None) => ret (b, result)
  end.

(** *** System calls *)

(** [stat64(path, &st)]: [st.st_size], or [None] when the call fails. *)
Definition stat64 (path : string) : M (option Z) :=
  fun st =>
    let st1 := log (EvStat path) st in
    match fs (os st1) !! path with
    | None => Ok None st1
    | Some i =>
        Ok (Some (if regular i then Z.of_nat (length (contents i)) else 0)) st1
    end.

(** A new handle: the lowest free number, unless the path cannot be read
    or the handle table is full.  Used for [open(path, O_RDONLY)] and for
    [CreateFile(path, GENERIC_READ, ...)]. *)
Definition open_handle (path : string) : M (option nat) :=
  fun st =>
    let st1 := log (EvOpen path) st in
    let k := os st1 in
    match fs k !! path with
    | Some i =>
        if readable i && bool_decide (size (handles k) < handle_limit k)%nat
        then
          let fd := fresh (dom (handles k)) in
          Ok (Some fd)
             (set_os (set_handles (<[fd := OpenFile path]> (handles k)) k) st1)
        else Ok None st1
    | None => Ok None st1
    end.

(** Placing a read-only private mapping of the first [len] bytes of
    [path]: the file's bytes, zero-filled up to the end of the last
    page.  [None] is MAP_FAILED / a null view. *)
Definition map_path (path : string) (len : Z) : M (option Z) :=
  fun st =>
    let k := os st in
    match fs k !! path with
    | Some i =>
        let span := round_up_page len in
        if regular i && (0 <? len) && (next_map k + span <=? addr_limit k)
        then
          let base := next_map k in
          let image := resize (Z.to_nat span) 0 (take (Z.to_nat len) (contents i)) in
          Ok (Some base)
             (set_os (set_next_map (base + span)
                        (set_mem (back_cells base image (mem k))
                                 (<[base := span]> (views k)) k)) st)
        else Ok None st
    | None => Ok None st
    end.

(** [mmap(NULL, len, PROT_READ, MAP_PRIVATE, fd, 0)] *)
Definition mmap (len : Z) (fd : nat) : M (option Z) :=
  fun st =>
    let st1 := log (EvMmap len) st in
    match handles (os st1) !! fd with
    | Some (OpenFile path) => map_path path len st1
    | _ => Ok None st1
    end.

(** [munmap(addr, len)] *)
Definition munmap (addr len : Z) : M unit :=
  modify (fun st =>
    let k := os st in
    log (EvMunmap addr)
      (set_os (set_mem (over_range None addr (Z.to_nat (round_up_page len)) (mem k))
                       (delete addr (views k)) k) st)).

(** [CloseHandle(h)] *)
Definition CloseHandle (h : nat) : M unit :=
  modify (fun st =>
    log (EvClose h) (set_os (set_handles (delete h (handles (os st))) (os st)) st)).

(** [GetFileSizeEx(f, &i)]: [i.QuadPart], or [None] when it fails. *)
Definition GetFileSizeEx (h : nat) : M (option Z) :=
  fun st =>
    let st1 := log (EvFileSize h) st in
    match handles (os st1) !! h with
    | Some (OpenFile path) =>
        match fs (os st1) !! path with
        | Some i =>
            if regular i then Ok (Some (Z.of_nat (length (contents i)))) st1
            else Ok None st1
        | None => Ok None st1
        end
    | _ => Ok None st1
    end.

(** [CreateFileMapping(f, nullptr, PAGE_READONLY, 0, 0, nullptr)]: fails
    on an empty file and when the handle table is full. *)
Definition CreateFileMapping (h : nat) : M (option nat) :=
  fun st =>
    let st1 := log (EvCreateMapping h) st in
    let k := os st1 in
    match handles k !! h with
    | Some (OpenFile path) =>
        match fs k !! path with
        | Some i =>
            if regular i && bool_decide (contents i ≠ [])
               && bool_decide (size (handles k) < handle_limit k)%nat
            then
              let hmap := fresh (dom (handles k)) in
              Ok (Some hmap)
                 (set_os (set_handles (<[hmap := FileMapping path]> (handles k)) k)
                    st1)
            else Ok None st1
        | None => Ok None st1
        end
    | _ => Ok None st1
    end.

(** [MapViewOfFile(hmap, FILE_MAP_READ, 0, 0, size)] *)
Definition MapViewOfFile (hmap : nat) (len : Z) : M (option Z) :=
  fun st =>
    let st1 := log (EvMmap len) st in
    match handles (os st1) !! hmap with
    | Some (FileMapping path) => map_path path len st1
    | _ => Ok None st1
    end.

(** [UnmapViewOfFile(data)] *)
Definition UnmapViewOfFile (addr : Z) : M unit :=
  modify (fun st =>
    let k := os st in
    match views k !! addr with
    | Some span =>
        log (EvMunmap addr)
          (set_os (set_mem (over_range None addr (Z.to_nat span) (mem k))
                           (delete addr (views k)) k) st)
    | None => log (EvMunmap addr) st
    end).

(** *** open_file *)

Definition open_file_posix (path : string) : M (option file) :=
  let* st_size := stat64 path in
  match st_size with
  | None => ret None
  | Some st_size =>
      let* fd := open_handle path in
      match fd with
      | None => ret None
      | Some fd =>
          let* data := mmap st_size fd in
          match data with
          | None => ret None
          | Some data =>
              ret (Some {| f_size := size_t_wrap st_size; f_data := data;
                           f_kind := posix_file |})
          end
      end
  end.

Definition open_file_windows (path : string) : M (option file) :=
  let* f := open_handle path in
  match f with
  | None => ret None
  | Some f =>
      let* i := GetFileSizeEx f in
      match i with
      | None => let* _ := CloseHandle f in ret None
      | Some i =>
          let size := size_t_wrap i in
          let* hmap := CreateFileMapping f in
          match hmap with
          | None => ret None
          | Some hmap =>
              let* data := MapViewOfFile hmap size in
              let* _ := CloseHandle f in
              match data with
              | None => let* _ := CloseHandle hmap in ret None
              | Some data =>
                  ret (Some {| f_size := size; f_data := data;
                               f_kind := windows_file hmap |})
              end
          end
      end
  end.

(** [None] is the null pointer. *)
Definition open_file (path : string) : M (option file) :=
  match platform_of T with
  | Posix => open_file_posix path
  | Windows => open_file_windows path
  end.

(** [delete f]: the destructor of the dynamic type. *)
Definition delete_file (f : file) : M unit :=
  match f_kind f with
  | posix_file => munmap (f_data f) (f_size f)
  | windows_file win_handle =>
      let* _ := UnmapViewOfFile (f_data f) in
      CloseHandle win_handle
  end.

(** *** main *)

Definition print (l : line) : M unit := modify (log (EvPrint l)).

(** [f->size] and the [this] that [f->read] works on.  Through a null
    [f] the members are loaded from the null page. *)
Definition member_size (f : option file) : M Z :=
  match f with
  | Some f => ret (f_size f)
  | None => load_size_t (offsetof_size T)
  end.

Definition member_data (f : option file) : M Z :=
  match f with
  | Some f => ret (f_data f)
  | None => load_size_t (offsetof_size T + 8)
  end.

(** The first [length draws] rounds of [while (true)]; [draws] are the
    values that [random(rng)] yields. *)
Fixpoint main_loop (f : file) (draws : list Z) : M unit :=
  match draws with
  | [] => ret tt
  | d :: draws' =>
      let offset := size_t_wrap d in
      let* r := read f offset None in
      let* _ :=
        match r with
        | (true, Some value) => print (Number value)
        | (true, None) => print Indeterminate
        | (false, _) => print (Text "Failed to read")
        end in
      main_loop f draws'
  end.

(** [Some c]: main returned [c].  [None]: the loop is still running after
    all of [draws] were used. *)
Definition main (argc : Z) (argv : list string) (draws : list Z)
  : M (option Z) :=
  if negb (argc =? 2) then ret (Some 1)
  else
    let* _ := install_signal_handlers in
    let* f := open_file (nth 1 argv "") in
    let* size := member_size f in
    let* this :=
      match f with
      | Some f => ret f
      | None =>
          let* data := member_data f in
          ret {| f_size := size; f_data := data; f_kind := posix_file |}
      end in
    let* _ := main_loop this draws in
    ret None.

(** The process around [main]: an exception that no filter took ends
    it. *)
Definition run (argc : Z) (argv : list string) (draws : list Z)
  : M (option Z) :=
  fun st =>
    match main argc argv draws st with
    | Unwinding (Seh code) s => Terminated (UnhandledException code) s
    | r => r
    end.

End Program.

(** ** The naive reader *)

Module Naive.

Section Program.

Variable T : target.
Variable restarts : nat.

Definition read (f : file) (offset : Z) : M Z :=
  let* _ := assert (offset <=? size_t_wrap (f_size f - sizeof_int64_t)) in
  load_int64 T restarts (ptr_add (f_data f) offset).

Definition open_file (path : string) : M (option file) :=
  open_file_posix path.

Fixpoint main_loop (f : file) (draws : list Z) : M unit :=
  match draws with
  | [] => ret tt
  | d :: draws' =>
      let offset := size_t_wrap d in
      let* value := read f offset in
      let* _ := print (Number value) in
      main_loop f draws'
  end.

Definition main (argc : Z) (argv : list string) (draws : list Z)
  : M (option Z) :=
  if negb (argc =? 2) then ret (Some 1)
  else
    let* f := open_file (nth 1 argv "") in
    let* size := member_size T restarts f in
    let* this :=
      match f with
      | Some f => ret f
      | None =>
          let* data := member_data T restarts f in
          ret {| f_size := size; f_data := data; f_kind := posix_file |}
      end in
    let* _ := main_loop this draws in
    ret None.

End Program.

End Naive.

(** ** Results and traces *)

(** The state a computation stopped in, and what it returned if it
    did. *)
Definition state_of {A} (r : result A) : state :=
  match r with
  | Ok _ s | Unwinding _ s | Terminated _ s | Spinning s => s
  end.

Definition value_of {A} (r : result A) : option A :=
  match r with
  | Ok a _ => Some a
  | _ => None
  end.

(** The lines printed so far, newest first. *)
Definition printed (st : state) : list line :=
  omap (λ e, match e with EvPrint l => Some l | _ => None end) (trace st).

(** ** Vocabulary of the statements *)

(** The bytes [bs] are mapped, with their storage, from [base] on. *)
Definition mapped_at (m : gmap Z cell) (base : Z) (bs : list Z) : Prop :=
  ∀ (i : nat) (b : Z), bs !! i = Some b → m !! (base + Z.of_nat i) = Some (Backed b).

(** The condition that [file::read] asserts. *)
Definition in_bounds (f : file) (offset : Z) : bool :=
  offset <=? size_t_wrap (f_size f - sizeof_int64_t).

(** The state at the moment the lambda starts. *)
Definition armed (T : target) (st : state) : state :=
  match platform_of T with
  | Windows => log EvArm st
  | Posix =>
      log EvArm (set_jmp_buf (Some (length (trace st))) (set_jmp_set true st))
  end.

(** The state a guarded read returns in, from the state the lambda
    stopped in. *)
Definition disarmed (T : target) (st : state) : state :=
  match platform_of T with
  | Windows => st
  | Posix => set_jmp_set false st
  end.

(** The handler for faults during guarded reads is in place. *)
Definition handler_ready (T : target) (st : state) : Prop :=
  platform_of T = Posix → sigbus_action (os st) = Handler_handle_sigbus.

(** The kernel keeps mappings inside a 64-bit address space and away
    from the null page. *)
Record sane (k : kernel) : Prop := {
  sane_low : page_size ≤ next_map k;
  sane_high : addr_limit k ≤ two64;
  sane_null : ∀ a, a < page_size → mem k !! a = None;
  sane_files :
    ∀ path i, fs k !! path = Some i → Z.of_nat (length (contents i)) < two64;
}.

(** The causes for which [open_file] fails: nothing at the path; a
    file that cannot be read, or no free handle; a file that cannot be
    mapped, or no room for the mapping. *)
Definition cannot_stat (path : string) (k : kernel) : Prop :=
  fs k !! path = None.

Definition cannot_open (path : string) (k : kernel) : Prop :=
  ∃ i, fs k !! path = Some i
       ∧ (readable i = false ∨ (handle_limit k ≤ size (handles k))%nat).

Definition cannot_map (path : string) (k : kernel) : Prop :=
  ∃ i, fs k !! path = Some i
       ∧ (regular i = false
          ∨ contents i = []
          ∨ addr_limit k
            < next_map k + round_up_page (Z.of_nat (length (contents i)))).

(** The events of a system call. *)
Definition is_syscall (e : event) : Prop :=
  match e with
  | EvStat _ | EvOpen _ | EvFileSize _ | EvCreateMapping _ | EvMmap _
  | EvMunmap _ | EvClose _ | EvSigaction => True
  | EvArm | EvLoad _ | EvFault _ | EvPrint _ => False
  end.

(** From [st] to [st'] the program only made system calls, and none of
    them twice; the thread-locals, the file system, the limits and the
    disposition of SIGBUS are untouched. *)
Record only_syscalls (st st' : state) : Prop := {
  calls_tls : tls st' = tls st;
  calls_fs : fs (os st') = fs (os st);
  calls_action : sigbus_action (os st') = sigbus_action (os st);
  calls_trace :
    ∃ new, trace st' = new ++ trace st ∧ NoDup new ∧ Forall is_syscall new;
}.

(** The computation ended the process instead of returning. *)
Definition fails_fast {A} (r : result A) : Prop :=
  ∃ t s, r = Terminated t s.

(** How the process ends when [main] goes through a null [file]
    pointer. *)
Definition crash (T : target) : termination :=
  match platform_of T with
  | Posix => Signalled SIGSEGV
  | Windows => UnhandledException EXCEPTION_ACCESS_VIOLATION
  end.

(** The state in which [main] calls [open_file]. *)
Definition installed (T : target) (st : state) : state :=
  state_of (install_signal_handlers T st).

(** ** Sample machines, files and states *)

Definition linux_x86_64 : target :=
  {| platform_of := Posix; endian := LittleEndian; offsetof_size := 8 |}.

Definition windows_x64 : target :=
  {| platform_of := Windows; endian := LittleEndian; offsetof_size := 8 |}.

(** A process right after [exec]: the three standard descriptors, no
    mapping, every signal at its default, thread-locals zeroed. *)
Definition boot (files : gmap string inode) : state :=
  {| tls := {| sigbus_jmp_set := false; sigbus_jmp_buf := None |};
     os := {| fs := files;
              handles := {[ 0%nat := OpenFile "/dev/stdin";
                            1%nat := OpenFile "/dev/stdout";
                            2%nat := OpenFile "/dev/stderr" ]};
              handle_limit := 1024;
              mem := ∅;
              views := ∅;
              next_map := 0x10000;
              addr_limit := 2 ^ 47;
              sigbus_action := SIG_DFL |};
     trace := [] |}.

Definition plain (bs : list Z) : inode :=
  {| contents := bs; readable := true; regular := true |}.

(** The storage behind [n] bytes from [addr] goes away (the file is
    truncated by another process, the device is removed). *)
Definition storage_lost (addr : Z) (n : nat) (st : state) : state :=
  set_os (set_mem (over_range (Some Lost) addr n (mem (os st)))
                  (views (os st)) (os st)) st.

(** The 16-byte file of the scenario: 42 in little-endian order, then
    eight zero bytes. *)
Definition forty_two : list Z :=
  [42; 0; 0; 0; 0; 0; 0; 0; 0; 0; 0; 0; 0; 0; 0; 0].

(** The scenario of the specification: a 16-byte file that holds 42 in
    little-endian order and then eight zero bytes, opened and read on a
    little-endian machine. *)
Definition scenario_boot : state := boot {[ "data.bin" := plain forty_two ]}.

Definition scenario_file : file :=
  {| f_size := 16; f_data := 0x10000; f_kind := posix_file |}.

Definition scenario_open : state :=
  state_of (open_file linux_x86_64 "data.bin" scenario_boot).

(** A file of two pages: 4096 bytes of 7, then 42 as a little-endian
    64-bit integer. *)
Definition two_pages : list Z := replicate 4096 7 ++ [42; 0; 0; 0; 0; 0; 0; 0].

Definition pack_file : file :=
  {| f_size := 4104; f_data := 0x10000; f_kind := posix_file |}.

(** The state of [main] on [linux_x86_64] when it enters its loop. *)
Definition pack_ready : state :=
  state_of
    ((let* _ := install_signal_handlers linux_x86_64 in
      open_file linux_x86_64 "pack.idx")
       (boot {[ "pack.idx" := plain two_pages ]})).

(** Another process truncates the file to one page. *)
Definition pack_truncated : state :=
  storage_lost (0x10000 + 4096) 4096 pack_ready.

(** A file of four bytes, opened on [linux_x86_64]. *)
Definition tiny_file : file :=
  {| f_size := 4; f_data := 0x10000; f_kind := posix_file |}.

Definition tiny_open : state :=
  state_of (open_file linux_x86_64 "tiny.bin"
              (boot {[ "tiny.bin" := plain [1; 2; 3; 4] ]})).

(** The same file on the Windows build, its second page gone. *)
Definition wpack_file : file :=
  {| f_size := 4104; f_data := 0x10000; f_kind := windows_file 4 |}.

Definition wpack_ready : state :=
  state_of
    ((let* _ := install_signal_handlers windows_x64 in
      open_file windows_x64 "pack.idx")
       (boot {[ "pack.idx" := plain two_pages ]})).

Definition wpack_truncated : state :=
  storage_lost (0x10000 + 4096) 4096 wpack_ready.

(** ** Several threads *)

(** The POSIX guarded read again, statement by statement, so that the
    threads of one process can be interleaved.  Each thread has its own
    copy of the two [thread_local] variables and works through a list of
    guarded reads; the kernel's side (the mappings, the disposition of
    SIGBUS) is shared.  A fault is delivered to the thread whose load
    faulted, and [handle_sigbus] runs on that thread. *)
Module Concurrent.

(** Where a thread stands inside [file::read] / [safe_mmap_try]. *)
Inductive pc :=
| AtBoundsCheck     (* assert(offset <= size - sizeof(int64_t)) *)
| AtNestingCheck    (* assert(!sigbus_jmp_set) *)
| AtArm             (* sigbus_jmp_set = true *)
| AtSetjmp          (* sigsetjmp(sigbus_jmp_buf, 0), first return *)
| AtLoad            (* fn(): *result = *(int64_t * )(data + offset) *)
| AtDisarm          (* sigbus_jmp_set = false; return true *)
| AtResume (c : Z)  (* sigsetjmp returns again, because of siglongjmp(.., c) *)
| AtDisarmFault.    (* sigbus_jmp_set = false; return false *)

Record thread := {
  locals : thread_locals;
  at_pc : pc;
  pending : list (file * Z);   (* the reads to do; the first is in progress *)
  value : option Z;            (* the caller's [int64_t value] *)
  finished : list (bool * option Z);   (* what the reads returned, newest first *)
}.

Inductive ending :=
| Ended (t : termination)
| Derailed.   (* siglongjmp into a frame that is not the running one *)

Definition goto (p : pc) (th : thread) : thread :=
  {| locals := locals th; at_pc := p; pending := pending th;
     value := value th; finished := finished th |}.

Definition with_locals (l : thread_locals) (th : thread) : thread :=
  {| locals := l; at_pc := at_pc th; pending := pending th;
     value := value th; finished := finished th |}.

Definition with_jmp_set (b : bool) (th : thread) : thread :=
  with_locals {| sigbus_jmp_set := b;
                 sigbus_jmp_buf := sigbus_jmp_buf (locals th) |} th.

Definition with_value (v : option Z) (th : thread) : thread :=
  {| locals := locals th; at_pc := at_pc th; pending := pending th;
     value := v; finished := finished th |}.

(** The activation of [safe_mmap_try] that the thread is in. *)
Definition frame (th : thread) : nat := length (finished th).

Definition save_context (th : thread) : thread :=
  with_locals {| sigbus_jmp_set := sigbus_jmp_set (locals th);
                 sigbus_jmp_buf := Some (frame th) |} th.

(** [return b] from [read], and on to the next read with a fresh
    [value]. *)
Definition return_from_read (b : bool) (th : thread) : thread :=
  {| locals := locals th; at_pc := AtBoundsCheck; pending := tail (pending th);
     value := None;
     finished := (b, if b then value th else None) :: finished th |}.

(** The state that code running on this thread sees. *)
Definition view (k : kernel) (th : thread) : state :=
  {| tls := locals th; os := k; trace := [] |}.

Section Steps.

Variable T : target.
Variable k : kernel.

(** One statement of one thread. *)
Definition step (th : thread) : thread + ending :=
  match pending th with
  | [] => inl th
  | (f, offset) :: _ =>
      match at_pc th with
      | AtBoundsCheck =>
          if in_bounds f offset then inl (goto AtNestingCheck th)
          else inr (Ended (Signalled SIGABRT))
      | AtNestingCheck =>
          if sigbus_jmp_set (locals th) then inr (Ended (Signalled SIGABRT))
          else inl (goto AtArm th)
      | AtArm => inl (goto AtSetjmp (with_jmp_set true th))
      | AtSetjmp => inl (goto AtLoad (save_context th))
      | AtLoad =>
          match fetch (mem k) (ptr_add (f_data f) offset) 8 with
          | Loaded bs =>
              inl (goto AtDisarm
                     (with_value (Some (int64_of_bytes (endian T) bs)) th))
          | Faulted SegViolation => inr (Ended (Signalled SIGSEGV))
          | Faulted BusError =>
              match sigbus_action k with
              | SIG_DFL => inr (Ended (Signalled SIGBUS))
              | Handler_handle_sigbus =>
                  match handle_sigbus (signum SIGBUS) (view k th) with
                  | Ok _ s => inl (with_locals (tls s) th)
                  | Unwinding (LongJmp target c) s =>
                      if decide (target = Some (frame th))
                      then inl (goto (AtResume c) (with_locals (tls s) th))
                      else inr Derailed
                  | _ => inr Derailed
                  end
              end
          end
      | AtResume c =>
          if sigsetjmp_value c =? 0 then inl (goto AtLoad th)
          else inl (goto AtDisarmFault th)
      | AtDisarm => inl (return_from_read true (with_jmp_set false th))
      | AtDisarmFault => inl (return_from_read false (with_jmp_set false th))
      end
  end.

(** A thread on its own. *)
Definition advance (th : thread) : thread :=
  match step th with
  | inl th' => th'
  | inr _ => th
  end.

End Steps.

(** A process: its threads by thread id, the shared kernel state, and
    how it ended if it did. *)
Record process := {
  threads : gmap nat thread;
  shared : kernel;
  ended : option ending;
}.

(** The scheduler lets thread [t] execute one statement. *)
Definition pstep (T : target) (P : process) (t : nat) : process :=
  match ended P with
  | Some _ => P
  | None =>
      match threads P !! t with
      | None => P
      | Some th =>
          match step T (shared P) th with
          | inl th' =>
              {| threads := <[t := th']> (threads P); shared := shared P;
                 ended := None |}
          | inr e =>
              {| threads := threads P; shared := shared P; ended := Some e |}
          end
      end
  end.

Definition run_schedule (T : target) (sched : list nat) (P : process) : process :=
  foldl (pstep T) P sched.

(** A thread that has not started: thread-locals zeroed, at the top of
    its first read. *)
Definition spawn (jobs : list (file * Z)) : thread :=
  {| locals := {| sigbus_jmp_set := false; sigbus_jmp_buf := None |};
     at_pc := AtBoundsCheck; pending := jobs; value := None; finished := [] |}.

(** What a guarded read of [job] is to return. *)
Definition expected (T : target) (k : kernel) (job : file * Z) : bool * option Z :=
  match fetch (mem k) (ptr_add (f_data job.1) job.2) 8 with
  | Loaded bs => (true, Some (int64_of_bytes (endian T) bs))
  | Faulted _ => (false, None)
  end.

(** A read the process survives: in bounds, and its bytes are there, or
    their storage is gone and the handler is installed. *)
Definition survivable (k : kernel) (job : file * Z) : Prop :=
  in_bounds job.1 job.2 = true
  ∧ ((∃ bs, fetch (mem k) (ptr_add (f_data job.1) job.2) 8 = Loaded bs)
     ∨ (fetch (mem k) (ptr_add (f_data job.1) job.2) 8 = Faulted BusError
        ∧ sigbus_action k = Handler_handle_sigbus)).

End Concurrent.

(** How many statements thread [t] gets to execute in a schedule. *)
Definition turns (t : nat) (sched : list nat) : nat :=
  length (filter (λ x, x = t) sched).

(** What holds of a thread between any two of its statements, when all
    its reads are survivable. *)
Definition steady (k : kernel) (th : Concurrent.thread) : Prop :=
  Forall (Concurrent.survivable k) (Concurrent.pending th)
  ∧ match Concurrent.at_pc th with
    | Concurrent.AtBoundsCheck | Concurrent.AtNestingCheck | Concurrent.AtArm =>
        sigbus_jmp_set (Concurrent.locals th) = false
    | Concurrent.AtSetjmp => sigbus_jmp_set (Concurrent.locals th) = true
    | Concurrent.AtLoad =>
        sigbus_jmp_set (Concurrent.locals th) = true
        ∧ sigbus_jmp_buf (Concurrent.locals th) = Some (Concurrent.frame th)
    | Concurrent.AtResume c => c ≠ 0
    | Concurrent.AtDisarm | Concurrent.AtDisarmFault => True
    end.

(** A thread between two reads: at the top of [read], no recovery point
    active. *)
Definition between_reads (th : Concurrent.thread) : Prop :=
  Concurrent.at_pc th = Concurrent.AtBoundsCheck
  ∧ sigbus_jmp_set (Concurrent.locals th) = false.

(** A thread inside the read of [job], and a thread that has just
    returned from it with [r]. *)
Definition thread_at (job : file * Z) (rest : list (file * Z))
    (fin : list (bool * option Z))
    (set : bool) (b : option nat) (p : Concurrent.pc) (w : option Z)
  : Concurrent.thread :=
  {| Concurrent.locals := {| sigbus_jmp_set := set; sigbus_jmp_buf := b |};
     Concurrent.at_pc := p; Concurrent.pending := job :: rest;
     Concurrent.value := w; Concurrent.finished := fin |}.

Definition returned (rest : list (file * Z)) (fin : list (bool * option Z))
    (b : option nat) (r : bool * option Z) : Concurrent.thread :=
  {| Concurrent.locals := {| sigbus_jmp_set := false; sigbus_jmp_buf := b |};
     Concurrent.at_pc := Concurrent.AtBoundsCheck; Concurrent.pending := rest;
     Concurrent.value := None; Concurrent.finished := r :: fin |}.

(** Two threads over the truncated two-page file: thread 0 reads the
    page that is left and then the page that is gone, thread 1 the other
    way round; the scheduler alternates between them. *)
Definition two_threads : gmap nat (list (file * Z)) :=
  {[ 0%nat := [(pack_file, 0); (pack_file, 4096)];
     1%nat := [(pack_file, 4096); (pack_file, 0)] ]}.

Definition alternating : list nat := concat (replicate 14 [0; 1]%nat).

(** ** Vocabulary of the further properties *)

(** The ways a guarded read can end when the handler is in place: it
    returns, the process aborts on an assertion or is killed by a
    segmentation fault, or (Windows) an access violation is on its way
    to an outer filter. *)
Definition contained {A} (T : target) (r : result A) : Prop :=
  match r with
  | Ok _ _ => True
  | Terminated (Signalled SIGABRT) _ => True
  | Terminated (Signalled SIGSEGV) _ => platform_of T = Posix
  | Unwinding (Seh code) _ =>
      platform_of T = Windows ∧ code = EXCEPTION_ACCESS_VIOLATION
  | _ => False
  end.

(** The scenario file mapped by a program that never installed the
    handler, its storage gone. *)
Definition scenario_lost : state := storage_lost 0x10000 16 scenario_open.

(** The file at [path] can be opened and mapped in full: it is there,
    readable, regular and not empty, and the address space has room for
    its pages. *)
Definition mappable (path : string) (i : inode) (k : kernel) : Prop :=
  fs k !! path = Some i
  ∧ readable i = true
  ∧ regular i = true
  ∧ contents i ≠ []
  ∧ next_map k + round_up_page (Z.of_nat (length (contents i))) ≤ addr_limit k.

(** [open_file] holds one handle at a time on POSIX, two on Windows (the
    file and the mapping object). *)
Definition handles_needed (T : target) : nat :=
  match platform_of T with
  | Posix => 1
  | Windows => 2
  end.

(** The pages that a mapping of the whole of [i] takes. *)
Definition span_of (i : inode) : Z :=
  round_up_page (Z.of_nat (length (contents i))).

(** From [st] to [st'] the whole of [i] was mapped, and [f] describes
    the mapping. *)
Record maps_file (i : inode) (st st' : state) (f : file) : Prop := {
  maps_size : f_size f = Z.of_nat (length (contents i));
  maps_data : f_data f = next_map (os st);
  maps_mem :
    mem (os st')
    = back_cells (next_map (os st))
        (resize (Z.to_nat (span_of i)) 0 (contents i)) (mem (os st));
  maps_views :
    views (os st') = <[next_map (os st) := span_of i]> (views (os st));
  maps_next : next_map (os st') = next_map (os st) + span_of i;
  maps_tls : tls st' = tls st;
  maps_action : sigbus_action (os st') = sigbus_action (os st);
  maps_fs : fs (os st') = fs (os st);
  maps_limits :
    handle_limit (os st') = handle_limit (os st)
    ∧ addr_limit (os st') = addr_limit (os st);
}.

(** The one handle that a successful [open_file] leaves behind: the
    descriptor on POSIX; on Windows the mapping object, the file handle
    having been closed. *)
Definition holds_handle (T : target) (path : string) (st st' : state)
    (f : file) : Prop :=
  match platform_of T with
  | Posix =>
      f_kind f = posix_file
      ∧ ∃ fd, handles (os st) !! fd = None
              ∧ handles (os st') = <[fd := OpenFile path]> (handles (os st))
  | Windows =>
      ∃ hmap, f_kind f = windows_file hmap
              ∧ handles (os st) !! hmap = None
              ∧ handles (os st')
                = <[hmap := FileMapping path]> (handles (os st))
  end.

(** Nothing is mapped from [next_map] on. *)
Definition vacant (k : kernel) : Prop :=
  (∀ a, next_map k ≤ a → mem k !! a = None)
  ∧ views k !! next_map k = None.

(** The line that the driver prints for offset [d] of a file with the
    bytes [bytes]. *)
Definition line_at (T : target) (bytes : list Z) (d : Z) : line :=
  Number (int64_of_bytes (endian T) (take 8 (drop (Z.to_nat d) bytes))).

(** The line that a round of the driver prints for the draw [d], by what
    the load finds. *)
Definition line_of (T : target) (k : kernel) (f : file) (d : Z) : line :=
  match fetch (mem k) (ptr_add (f_data f) (size_t_wrap d)) 8 with
  | Loaded bs => Number (int64_of_bytes (endian T) bs)
  | Faulted _ => Text "Failed to read"
  end.

(** A draw that the process survives: in bounds, and its address is
    mapped. *)
Definition harmless (k : kernel) (f : file) (d : Z) : Prop :=
  in_bounds f (size_t_wrap d) = true
  ∧ fetch (mem k) (ptr_add (f_data f) (size_t_wrap d)) 8 ≠ Faulted SegViolation.

(** * Properties *)

(** ** Loads from a backed mapping *)

Lemma value_of_Some {A} (r : result A) a :
  value_of r = Some a → r = Ok a (state_of r).
Proof. destruct r; simpl; congruence. Qed.

Lemma mapped_at_cons m base b bs :
  mapped_at m base (b :: bs) →
  m !! base = Some (Backed b) ∧ mapped_at m (base + 1) bs.
Proof.
  intros H. split.
  - specialize (H 0%nat b eq_refl). by rewrite Z.add_0_r in H.
  - intros i c Hi. specialize (H (S i) c Hi).
    by replace (base + 1 + Z.of_nat i) with (base + Z.of_nat (S i)) by lia.
Qed.

Lemma fetch_S m addr n :
  fetch m addr (S n)
  = match m !! addr with
    | None => Faulted SegViolation
    | Some Lost => Faulted BusError
    | Some (Backed b) =>
        match fetch m (addr + 1) n with
        | Loaded bs => Loaded (b :: bs)
        | Faulted k => Faulted k
        end
    end.
Proof. reflexivity. Qed.

Lemma fetch_mapped m base bs :
  mapped_at m base bs → fetch m base (length bs) = Loaded bs.
Proof.
  revert base. induction bs as [|b bs IH]; intros base H; [done|].
  apply mapped_at_cons in H as [Hb Hbs].
  change (length (b :: bs)) with (S (length bs)).
  by rewrite fetch_S, Hb, (IH _ Hbs).
Qed.

Lemma mapped_at_window m base bs (o n : nat) :
  mapped_at m base bs →
  mapped_at m (base + Z.of_nat o) (take n (drop o bs)).
Proof.
  intros H i b Hi.
  apply lookup_take_Some in Hi as [Hi _]. rewrite lookup_drop in Hi.
  specialize (H _ _ Hi).
  by replace (base + Z.of_nat o + Z.of_nat i) with (base + Z.of_nat (o + i)) by lia.
Qed.

Lemma fetch_window m base bs (o : nat) :
  mapped_at m base bs → (o + 8 ≤ length bs)%nat →
  fetch m (base + Z.of_nat o) 8 = Loaded (take 8 (drop o bs)).
Proof.
  intros H Hlen.
  assert (length (take 8 (drop o bs)) = 8%nat) as Hl
    by (rewrite length_take, length_drop; lia).
  rewrite <- Hl at 1. apply fetch_mapped. by apply mapped_at_window.
Qed.

(** ** The three ways a guarded read goes *)

Lemma read_out_of_bounds T restarts f offset slot st :
  in_bounds f offset = false →
  read T restarts f offset slot st = Terminated (Signalled SIGABRT) st.
Proof.
  unfold in_bounds. intros Hb. unfold read, bind, assert. by rewrite Hb.
Qed.

Lemma read_loaded T restarts f offset slot st bs :
  in_bounds f offset = true →
  sigbus_jmp_set (tls st) = false →
  fetch (mem (os st)) (ptr_add (f_data f) offset) 8 = Loaded bs →
  read T restarts f offset slot st
  = Ok (true, Some (int64_of_bytes (endian T) bs))
       (disarmed T (log (EvLoad (ptr_add (f_data f) offset)) (armed T st))).
Proof.
  unfold in_bounds. intros Hb Hflag Hfetch.
  unfold read, bind, assert, safe_mmap_try, armed, disarmed. rewrite Hb.
  unfold load_int64, load_from, load_once.
  destruct (platform_of T) eqn:HT; simpl.
  - unfold bind, gets, assert, modify. rewrite Hflag. simpl.
    unfold after_sigsetjmp, bind. simpl.
    by rewrite Hfetch.
  - by rewrite Hfetch.
Qed.

Lemma read_bus_error T restarts f offset slot st :
  in_bounds f offset = true →
  sigbus_jmp_set (tls st) = false →
  handler_ready T st →
  fetch (mem (os st)) (ptr_add (f_data f) offset) 8 = Faulted BusError →
  read T restarts f offset slot st
  = Ok (false, slot)
       (disarmed T (log (EvFault BusError)
                      (log (EvLoad (ptr_add (f_data f) offset)) (armed T st)))).
Proof.
  unfold in_bounds, handler_ready. intros Hb Hflag Hready Hfetch.
  unfold read, bind, assert, safe_mmap_try, armed, disarmed. rewrite Hb.
  unfold load_int64, load_from, load_once, deliver.
  destruct (platform_of T) eqn:HT; simpl.
  - unfold bind, gets, assert, modify. rewrite Hflag. simpl.
    unfold after_sigsetjmp, bind. simpl.
    rewrite Hfetch, (Hready eq_refl). unfold handle_sigbus. simpl.
    by rewrite decide_True.
  - by rewrite Hfetch.
Qed.

(** A guarded read that returns went one of the two ways above. *)
Lemma read_returns T restarts f offset slot st r st' :
  read T restarts f offset slot st = Ok r st' →
  in_bounds f offset = true
  ∧ (platform_of T = Posix → sigbus_jmp_set (tls st) = false)
  ∧ ((∃ bs, fetch (mem (os st)) (ptr_add (f_data f) offset) 8 = Loaded bs
            ∧ r = (true, Some (int64_of_bytes (endian T) bs))
            ∧ st' = disarmed T (log (EvLoad (ptr_add (f_data f) offset))
                                  (armed T st)))
     ∨ (fetch (mem (os st)) (ptr_add (f_data f) offset) 8 = Faulted BusError
        ∧ handler_ready T st
        ∧ r = (false, slot)
        ∧ st' = disarmed T (log (EvFault BusError)
                               (log (EvLoad (ptr_add (f_data f) offset))
                                  (armed T st))))).
Proof.
  unfold in_bounds, handler_ready.
  unfold read, bind, assert, safe_mmap_try, armed, disarmed.
  destruct (offset <=? size_t_wrap (f_size f - sizeof_int64_t)); [|done].
  unfold load_int64, load_from, load_once, deliver.
  destruct (platform_of T) eqn:HT; simpl.
  - unfold bind, gets, assert, modify.
    destruct (sigbus_jmp_set (tls st)) eqn:Hflag; simpl; [done|].
    unfold after_sigsetjmp, bind. simpl.
    destruct (fetch _ _ _) as [bs|[]] eqn:Hfetch; simpl.
    + intros [= <- <-]. eauto 10.
    + destruct (sigbus_action (os st)) eqn:Hact; simpl; [done|].
      unfold handle_sigbus. simpl. rewrite decide_True by done. simpl.
      intros [= <- <-]. split_and!; [done..|]. right. done.
    + done.
  - destruct (fetch _ _ _) as [bs|[]] eqn:Hfetch; simpl.
    + intros [= <- <-]. split_and!; [done..|]. left. eauto.
    + intros [= <- <-]. split_and!; [done..|]. right. done.
    + done.
Qed.

(** ** What open_file maps *)

Lemma back_cells_lookup base bs m (i : nat) b :
  bs !! i = Some b → back_cells base bs m !! (base + Z.of_nat i) = Some (Backed b).
Proof.
  revert base i. induction bs as [|c bs IH]; intros base i Hi; [done|].
  cbn [back_cells]. destruct i as [|i].
  - injection Hi as ->. by rewrite Z.add_0_r, lookup_insert_eq.
  - rewrite lookup_insert_ne by lia.
    replace (base + Z.of_nat (S i)) with (base + 1 + Z.of_nat i) by lia.
    by apply IH.
Qed.

Lemma back_cells_mapped base bs tail m :
  mapped_at (back_cells base (bs ++ tail) m) base bs.
Proof.
  intros i b Hi. apply back_cells_lookup. by apply lookup_app_l_Some.
Qed.

Lemma round_up_page_ge n : n ≤ round_up_page n.
Proof.
  unfold round_up_page, page_size.
  pose proof (Z.div_mod (n + 4096 - 1) 4096 ltac:(lia)).
  pose proof (Z.mod_pos_bound (n + 4096 - 1) 4096 ltac:(lia)).
  lia.
Qed.

Lemma map_path_mapped path len st base st' i :
  fs (os st) !! path = Some i →
  len = Z.of_nat (length (contents i)) →
  map_path path len st = Ok (Some base) st' →
  mapped_at (mem (os st')) base (contents i).
Proof.
  intros Hi -> Hmap. unfold map_path in Hmap. rewrite Hi in Hmap.
  destruct (_ && _) eqn:Hc; [|done].
  injection Hmap as <- <-. simpl.
  rewrite Nat2Z.id, firstn_all.
  pose proof (round_up_page_ge (Z.of_nat (length (contents i)))).
  unfold resize. rewrite resize_ge by lia.
  apply back_cells_mapped.
Qed.

(** A successful [open_file] on POSIX: what was opened, and what is
    left behind. *)
Lemma open_file_posix_Some path st f st' :
  sane (os st) →
  open_file_posix path st = Ok (Some f) st' →
  ∃ i fd,
    fs (os st) !! path = Some i
    ∧ regular i = true ∧ readable i = true
    ∧ handles (os st) !! fd = None
    ∧ handles (os st') = <[fd := OpenFile path]> (handles (os st))
    ∧ f_size f = Z.of_nat (length (contents i))
    ∧ 0 < f_size f
    ∧ f_data f = next_map (os st)
    ∧ f_data f + f_size f ≤ addr_limit (os st)
    ∧ f_kind f = posix_file
    ∧ mapped_at (mem (os st')) (f_data f) (contents i)
    ∧ tls st' = tls st
    ∧ sigbus_action (os st') = sigbus_action (os st)
    ∧ trace st' = EvMmap (f_size f) :: EvOpen path :: EvStat path :: trace st.
Proof.
  intros [Hlow Hhigh _ _].
  unfold open_file_posix, bind, stat64, open_handle, mmap, ret. simpl.
  destruct (fs (os st) !! path) as [i|] eqn:Hi; [|done]. simpl. rewrite Hi.
  destruct (readable i) eqn:Hr; simpl; [|done].
  case_bool_decide as Hlim; simpl; [|done].
  rewrite lookup_insert_eq.
  set (fd := fresh (dom (handles (os st)))).
  set (len := if regular i then Z.of_nat (length (contents i)) else 0).
  destruct (map_path path len _) as [[base|] st2| | |] eqn:Hmap; try done.
  intros [= <- <-]. exists i, fd.
  pose proof Hmap as Hmap'.
  unfold map_path in Hmap. simpl in Hmap. rewrite Hi in Hmap.
  destruct (regular i) eqn:Hreg; simpl in Hmap; [|done].
  destruct (0 <? len) eqn:Hpos; simpl in Hmap; [|done].
  destruct (_ <=? _) eqn:Hfit; simpl in Hmap; [|done].
  injection Hmap as <- <-.
  apply Z.ltb_lt in Hpos. apply Z.leb_le in Hfit.
  pose proof (round_up_page_ge len). unfold page_size in Hlow.
  simpl. unfold size_t_wrap. rewrite Z.mod_small by lia.
  split_and!; try done; try lia.
  - apply not_elem_of_dom, is_fresh.
  - refine (map_path_mapped _ _ _ _ _ i _ eq_refl Hmap'). exact Hi.
Qed.

Lemma boot_sane files :
  (∀ path i, files !! path = Some i → Z.of_nat (length (contents i)) < two64) →
  sane (os (boot files)).
Proof.
  intros Hfiles.
  split; simpl; [unfold page_size; lia | unfold two64; lia | done | done].
Qed.

Lemma boot_one_file_sane path bs :
  Z.of_nat (length bs) < two64 → sane (os (boot {[ path := plain bs ]})).
Proof.
  intros Hlen. apply boot_sane. intros p i Hi.
  apply lookup_singleton_Some in Hi as [_ <-]. done.
Qed.

(** ** Reads at valid offsets *)

(** C1.  On a stable, fully backed mapping (the bytes of the file are
    mapped with their storage from [f_data f] on), for every offset [o]
    with [0 ≤ o ≤ size - 8], the guarded read [file::read] returns [true]
    and stores the eight bytes at [o] read as a native-endian signed
    64-bit integer. *)
Theorem read_valid_offset T restarts f (bytes : list Z) o slot st :
  mapped_at (mem (os st)) (f_data f) bytes →
  f_size f = Z.of_nat (length bytes) →
  0 ≤ f_data f →
  f_data f + f_size f ≤ two64 →
  sigbus_jmp_set (tls st) = false →
  0 ≤ o ≤ f_size f - 8 →
  ∃ st',
    read T restarts f o slot st
    = Ok (true,
          Some (int64_of_bytes (endian T) (take 8 (drop (Z.to_nat o) bytes))))
         st'.
Proof.
  intros Hmapped Hsize Hbase Htop Hflag Ho.
  eexists. apply read_loaded; [|done|].
  - unfold in_bounds, size_t_wrap, sizeof_int64_t.
    rewrite Z.mod_small by lia. apply Z.leb_le. lia.
  - unfold ptr_add, size_t_wrap. rewrite Z.mod_small by lia.
    rewrite <- (Z2Nat.id o) at 1 by lia.
    apply fetch_window; [done|lia].
Qed.

Lemma scenario_open_file :
  open_file linux_x86_64 "data.bin" scenario_boot
  = Ok (Some scenario_file) scenario_open.
Proof. apply value_of_Some. vm_compute. reflexivity. Qed.

Lemma scenario_mapped :
  mapped_at (mem (os scenario_open)) (f_data scenario_file) forty_two.
Proof.
  destruct (open_file_posix_Some _ _ _ _
              (boot_one_file_sane _ forty_two ltac:(done)) scenario_open_file)
    as (i & fd & Hi & _ & _ & _ & _ & _ & _ & _ & _ & _ & Hm & _).
  vm_compute in Hi. by injection Hi as <-.
Qed.

Lemma read_valid_offset_scenario :
  mapped_at (mem (os scenario_open)) (f_data scenario_file) forty_two
  ∧ sigbus_jmp_set (tls scenario_open) = false
  ∧ (∃ st', read linux_x86_64 0 scenario_file 0 None scenario_open
            = Ok (true, Some 42) st')
  ∧ (∃ st', read linux_x86_64 0 scenario_file 8 None scenario_open
            = Ok (true, Some 0) st').
Proof.
  split; [exact scenario_mapped|].
  split; [reflexivity|].
  split.
  - apply (read_valid_offset linux_x86_64 0 scenario_file forty_two 0 None
             scenario_open scenario_mapped);
      [reflexivity | vm_compute; discriminate | vm_compute; discriminate
      | reflexivity | vm_compute; split; discriminate].
  - apply (read_valid_offset linux_x86_64 0 scenario_file forty_two 8 None
             scenario_open scenario_mapped);
      [reflexivity | vm_compute; discriminate | vm_compute; discriminate
      | reflexivity | vm_compute; split; discriminate].
Defined.

(** ** The recovery flag *)

Lemma read_returns_disarmed T restarts f offset slot st r st' :
  sigbus_jmp_set (tls st) = false →
  read T restarts f offset slot st = Ok r st' →
  sigbus_jmp_set (tls st') = false.
Proof.
  intros Hflag Hread.
  apply read_returns in Hread as (_ & _ & [(bs & _ & _ & ->)|(_ & _ & _ & ->)]);
    unfold disarmed, armed; by destruct (platform_of T).
Qed.

(** On POSIX a guarded read returns only if the flag was clear when it
    was called. *)
Lemma read_returns_was_disarmed T restarts f offset slot st r st' :
  platform_of T = Posix →
  read T restarts f offset slot st = Ok r st' →
  sigbus_jmp_set (tls st) = false.
Proof.
  intros HT Hread. apply read_returns in Hread as (_ & Hflag & _). auto.
Qed.

(** A guarded read leaves the kernel's side of the state alone. *)
Lemma read_returns_os T restarts f offset slot st r st' :
  read T restarts f offset slot st = Ok r st' → os st' = os st.
Proof.
  intros Hread.
  apply read_returns in Hread as (_ & _ & [(bs & _ & _ & ->)|(_ & _ & _ & ->)]);
    unfold disarmed, armed; by destruct (platform_of T).
Qed.

(** C2.  The thread's "recovery active" flag [sigbus_jmp_set], false
    when a guarded read is called, is false again whenever the read
    returns, with [true] or with [false]; so after a first read that
    faulted, a second read of valid data on the same thread succeeds,
    and the flag is false after it too. *)
Theorem recovery_flag_false_around_reads
    T restarts f o1 o2 slot (bs : list Z) st :
  sigbus_jmp_set (tls st) = false →
  handler_ready T st →
  in_bounds f o1 = true →
  fetch (mem (os st)) (ptr_add (f_data f) o1) 8 = Faulted BusError →
  in_bounds f o2 = true →
  fetch (mem (os st)) (ptr_add (f_data f) o2) 8 = Loaded bs →
  (∀ o r st', read T restarts f o slot st = Ok r st' →
              sigbus_jmp_set (tls st') = false)
  ∧ ∃ st1 st2,
      read T restarts f o1 slot st = Ok (false, slot) st1
      ∧ sigbus_jmp_set (tls st1) = false
      ∧ read T restarts f o2 slot st1
        = Ok (true, Some (int64_of_bytes (endian T) bs)) st2
      ∧ sigbus_jmp_set (tls st2) = false.
Proof.
  intros Hflag Hready Hb1 Hf1 Hb2 Hf2. split.
  - intros o r st'. by apply read_returns_disarmed.
  - pose proof (read_bus_error T restarts f o1 slot st Hb1 Hflag Hready Hf1)
      as Hfirst.
    pose proof (read_returns_disarmed _ _ _ _ _ _ _ _ Hflag Hfirst) as Hflag1.
    pose proof (read_returns_os _ _ _ _ _ _ _ _ Hfirst) as Hos1.
    eexists _, _. split; [exact Hfirst|]. split; [exact Hflag1|].
    assert (read T restarts f o2 slot
              (disarmed T (log (EvFault BusError)
                 (log (EvLoad (ptr_add (f_data f) o1)) (armed T st))))
            = Ok (true, Some (int64_of_bytes (endian T) bs))
                 (disarmed T (log (EvLoad (ptr_add (f_data f) o2))
                    (armed T (disarmed T (log (EvFault BusError)
                       (log (EvLoad (ptr_add (f_data f) o1)) (armed T st))))))))
      as Hsecond.
    { apply read_loaded; [done|done|]. by rewrite Hos1. }
    split; [exact Hsecond|].
    by apply (read_returns_disarmed _ _ _ _ _ _ _ _ Hflag1 Hsecond).
Qed.

Lemma recovery_flag_false_around_reads_witness :
  sigbus_jmp_set (tls pack_truncated) = false
  ∧ handler_ready linux_x86_64 pack_truncated
  ∧ in_bounds pack_file 4096 = true
  ∧ fetch (mem (os pack_truncated)) (ptr_add (f_data pack_file) 4096) 8
    = Faulted BusError
  ∧ in_bounds pack_file 0 = true
  ∧ fetch (mem (os pack_truncated)) (ptr_add (f_data pack_file) 0) 8
    = Loaded [7; 7; 7; 7; 7; 7; 7; 7]
  ∧ ∃ st1 st2,
      read linux_x86_64 0 pack_file 4096 None pack_truncated = Ok (false, None) st1
      ∧ sigbus_jmp_set (tls st1) = false
      ∧ read linux_x86_64 0 pack_file 0 None st1
        = Ok (true, Some 0x0707070707070707) st2
      ∧ sigbus_jmp_set (tls st2) = false.
Proof.
  assert (sigbus_jmp_set (tls pack_truncated) = false) as H1 by reflexivity.
  assert (handler_ready linux_x86_64 pack_truncated) as H2
    by (intros _; vm_compute; reflexivity).
  assert (in_bounds pack_file 4096 = true) as H3 by (vm_compute; reflexivity).
  assert (fetch (mem (os pack_truncated)) (ptr_add (f_data pack_file) 4096) 8
          = Faulted BusError) as H4 by (vm_compute; reflexivity).
  assert (in_bounds pack_file 0 = true) as H5 by (vm_compute; reflexivity).
  assert (fetch (mem (os pack_truncated)) (ptr_add (f_data pack_file) 0) 8
          = Loaded [7; 7; 7; 7; 7; 7; 7; 7]) as H6 by (vm_compute; reflexivity).
  do 6 (split; [assumption|]).
  exact (proj2 (recovery_flag_false_around_reads linux_x86_64 0 pack_file
                  4096 0 None _ pack_truncated H1 H2 H3 H4 H5 H6)).
Defined.

(** ** Faults during a guarded read *)

(** C3.  When the dereference of a guarded read faults because the
    storage behind the mapping is gone, the read returns [false] as an
    ordinary result, with the recovery flag clear and the handler still in
    place; the process is not terminated, and the driver loop prints
    "Failed to read" and goes on with the next round. *)
Theorem fault_becomes_read_failure T restarts f d draws st :
  sigbus_jmp_set (tls st) = false →
  handler_ready T st →
  in_bounds f (size_t_wrap d) = true →
  fetch (mem (os st)) (ptr_add (f_data f) (size_t_wrap d)) 8 = Faulted BusError →
  ∃ st',
    read T restarts f (size_t_wrap d) None st = Ok (false, None) st'
    ∧ sigbus_jmp_set (tls st') = false
    ∧ handler_ready T st'
    ∧ main_loop T restarts f (d :: draws) st
      = main_loop T restarts f draws (log (EvPrint (Text "Failed to read")) st').
Proof.
  intros Hflag Hready Hb Hfetch.
  pose proof (read_bus_error T restarts f _ None st Hb Hflag Hready Hfetch)
    as Hread.
  eexists. split; [exact Hread|].
  split; [by apply (read_returns_disarmed _ _ _ _ _ _ _ _ Hflag Hread)|].
  split.
  - intros HT. rewrite (read_returns_os _ _ _ _ _ _ _ _ Hread). auto.
  - cbn [main_loop]. unfold bind at 1. rewrite Hread.
    unfold bind at 1. reflexivity.
Qed.

Lemma fault_becomes_read_failure_witness :
  sigbus_jmp_set (tls pack_truncated) = false
  ∧ handler_ready linux_x86_64 pack_truncated
  ∧ in_bounds pack_file (size_t_wrap 4096) = true
  ∧ fetch (mem (os pack_truncated))
      (ptr_add (f_data pack_file) (size_t_wrap 4096)) 8 = Faulted BusError
  ∧ ∃ st',
      read linux_x86_64 0 pack_file (size_t_wrap 4096) None pack_truncated
      = Ok (false, None) st'
      ∧ sigbus_jmp_set (tls st') = false
      ∧ handler_ready linux_x86_64 st'
      ∧ main_loop linux_x86_64 0 pack_file [4096; 0] pack_truncated
        = main_loop linux_x86_64 0 pack_file [0]
            (log (EvPrint (Text "Failed to read")) st').
Proof.
  assert (sigbus_jmp_set (tls pack_truncated) = false) as H1 by reflexivity.
  assert (handler_ready linux_x86_64 pack_truncated) as H2
    by (intros _; vm_compute; reflexivity).
  assert (in_bounds pack_file (size_t_wrap 4096) = true) as H3
    by (vm_compute; reflexivity).
  assert (fetch (mem (os pack_truncated))
            (ptr_add (f_data pack_file) (size_t_wrap 4096)) 8
          = Faulted BusError) as H4 by (vm_compute; reflexivity).
  do 4 (split; [assumption|]).
  exact (fault_becomes_read_failure linux_x86_64 0 pack_file 4096 [0]
           pack_truncated H1 H2 H3 H4).
Defined.

(** What the driver prints over the truncated file: one failure, then
    the value from the page that is still there. *)
Example driver_over_truncated_file :
  printed (state_of (main_loop linux_x86_64 0 pack_file [4096; 0] pack_truncated))
  = [Number 0x0707070707070707; Text "Failed to read"].
Proof. vm_compute. reflexivity. Qed.

(** ** The bounds check *)

(** For a file of eight bytes or more the assertion rejects exactly the
    offsets with [o + 8 > size]: the process aborts in the state it was
    called in, before any load and before the recovery flag is touched. *)
Lemma read_beyond_end_aborts T restarts f o slot st :
  8 ≤ f_size f < two64 →
  0 ≤ o →
  f_size f < o + 8 →
  read T restarts f o slot st = Terminated (Signalled SIGABRT) st.
Proof.
  intros Hsize Ho Hover. apply read_out_of_bounds.
  unfold in_bounds, size_t_wrap, sizeof_int64_t.
  rewrite Z.mod_small by lia. apply Z.leb_gt. lia.
Qed.

(** For a shorter file [size - sizeof(int64_t)] wraps around, and the
    assertion lets every offset up to [2^64 - 8] through. *)
Lemma short_file_in_bounds f o :
  0 ≤ f_size f < 8 →
  0 ≤ o ≤ two64 - 8 →
  in_bounds f o = true.
Proof.
  intros Hsize Ho. unfold in_bounds, size_t_wrap, sizeof_int64_t.
  unfold two64 in *.
  rewrite <- (Z.mod_unique (f_size f - 8) (2 ^ 64) (-1) (f_size f - 8 + 2 ^ 64))
    by lia.
  apply Z.leb_le. lia.
Qed.

Lemma tiny_open_file :
  open_file linux_x86_64 "tiny.bin" (boot {[ "tiny.bin" := plain [1; 2; 3; 4] ]})
  = Ok (Some tiny_file) tiny_open.
Proof. apply value_of_Some. vm_compute. reflexivity. Qed.

(** C4, at a file shorter than eight bytes.  Offset 0 violates
    [offset + 8 ≤ size], yet the assertion passes, the recovery point is
    armed, the load is issued (it reads the four bytes of the file and
    four bytes of zero fill) and the read returns [true]. *)
Theorem short_file_read_not_rejected :
  f_size tiny_file < 0 + 8
  ∧ in_bounds tiny_file 0 = true
  ∧ value_of (read linux_x86_64 0 tiny_file 0 None tiny_open)
    = Some (true, Some 0x04030201)
  ∧ trace (state_of (read linux_x86_64 0 tiny_file 0 None tiny_open))
    = EvLoad 0x10000 :: EvArm :: trace tiny_open.
Proof. split_and!; vm_compute; reflexivity. Qed.

(** ** Faults outside a guarded read *)

Lemma handle_sigbus_not_armed c st :
  sigbus_jmp_set (tls st) = false → handle_sigbus c st = Ok tt st.
Proof. intros H. unfold handle_sigbus. by rewrite H. Qed.

(** With the handler installed and no recovery point, a load whose
    storage is gone is restarted for ever: the handler returns, nothing
    has changed, the instruction faults again. *)
Lemma restart_spins {A} T (decode : list Z → A) fuel addr st :
  platform_of T = Posix →
  sigbus_action (os st) = Handler_handle_sigbus →
  sigbus_jmp_set (tls st) = false →
  fetch (mem (os st)) addr 8 = Faulted BusError →
  ∃ s, restart T decode fuel addr st = Spinning s
       ∧ os s = os st ∧ tls s = tls st.
Proof.
  intros HT. revert st. induction fuel as [|fuel IH]; intros st Hact Hflag Hfetch.
  - by exists st.
  - cbn [restart]. unfold load_once, deliver. simpl.
    rewrite Hfetch, HT, Hact. rewrite handle_sigbus_not_armed by done.
    destruct (IH (log (EvFault BusError) (log (EvLoad addr) st)))
      as (s & -> & Hos & Htls); eauto.
Qed.

Lemma unguarded_load_spins T restarts addr st :
  platform_of T = Posix →
  sigbus_action (os st) = Handler_handle_sigbus →
  sigbus_jmp_set (tls st) = false →
  fetch (mem (os st)) addr 8 = Faulted BusError →
  ∃ s, load_int64 T restarts addr st = Spinning s
       ∧ os s = os st ∧ tls s = tls st.
Proof.
  intros HT Hact Hflag Hfetch.
  unfold load_int64, load_from, load_once, deliver. simpl.
  rewrite Hfetch, HT, Hact. rewrite handle_sigbus_not_armed by done.
  destruct (restart_spins T (int64_of_bytes (endian T)) restarts addr
              (log (EvFault BusError) (log (EvLoad addr) st)) HT)
    as (s & -> & Hos & Htls); eauto.
Qed.

(** C5, at a load outside any guarded read.  The handler is installed,
    the thread has no recovery point, the storage behind the address is
    gone.  The handler is entered and returns without doing anything;
    SIGBUS keeps its handler, the default action never applies, and
    however often the instruction is restarted the process is never
    terminated. *)
Theorem unguarded_fault_not_terminated :
  sigbus_jmp_set (tls pack_truncated) = false
  ∧ handle_sigbus (signum SIGBUS) pack_truncated = Ok tt pack_truncated
  ∧ ∀ restarts,
      ∃ s, load_int64 linux_x86_64 restarts (0x10000 + 4096) pack_truncated
           = Spinning s
           ∧ sigbus_action (os s) = Handler_handle_sigbus.
Proof.
  assert (sigbus_jmp_set (tls pack_truncated) = false) as Hflag
    by (vm_compute; reflexivity).
  assert (sigbus_action (os pack_truncated) = Handler_handle_sigbus) as Hact
    by (vm_compute; reflexivity).
  split; [done|]. split; [by apply handle_sigbus_not_armed|].
  intros restarts.
  destruct (unguarded_load_spins linux_x86_64 restarts (0x10000 + 4096)
              pack_truncated eq_refl Hact Hflag) as (s & Hs & Hos & _).
  { vm_compute. reflexivity. }
  exists s. split; [done|]. by rewrite Hos.
Qed.

(** ** Nested guarded reads *)

Lemma safe_mmap_try_armed_aborts {A} T (fn : M A) st :
  platform_of T = Posix →
  sigbus_jmp_set (tls st) = true →
  safe_mmap_try T fn st = Terminated (Signalled SIGABRT) st.
Proof.
  intros HT Hflag. unfold safe_mmap_try. rewrite HT.
  unfold bind, gets, assert. by rewrite Hflag.
Qed.

(** C6, as it holds: on the POSIX build, [safe_mmap_try] called while
    the thread's recovery point is active aborts the process, whatever
    the lambda is; in particular a guarded read whose lambda is itself a
    guarded read aborts at the inner call, before any load, and does not
    return [false]. *)
Theorem nested_guarded_read_aborts T restarts f o slot st :
  platform_of T = Posix →
  sigbus_jmp_set (tls st) = false →
  in_bounds f o = true →
  (∀ A (fn : M A) s,
      sigbus_jmp_set (tls s) = true →
      safe_mmap_try T fn s = Terminated (Signalled SIGABRT) s)
  ∧ safe_mmap_try T (read T restarts f o slot) st
    = Terminated (Signalled SIGABRT) (armed T st).
Proof.
  intros HT Hflag Hb. split.
  - intros A fn s. by apply safe_mmap_try_armed_aborts.
  - unfold in_bounds in Hb.
    unfold safe_mmap_try at 1. rewrite HT.
    unfold bind at 1 2 3, gets, assert, modify. rewrite Hflag. simpl.
    unfold after_sigsetjmp, bind at 1. simpl.
    unfold read, bind at 1 2, assert at 1. rewrite Hb.
    rewrite safe_mmap_try_armed_aborts by done.
    unfold armed. by rewrite HT.
Qed.

Lemma nested_guarded_read_aborts_witness :
  platform_of linux_x86_64 = Posix
  ∧ sigbus_jmp_set (tls pack_truncated) = false
  ∧ in_bounds pack_file 4096 = true
  ∧ safe_mmap_try linux_x86_64 (read linux_x86_64 0 pack_file 4096 None)
      pack_truncated
    = Terminated (Signalled SIGABRT) (armed linux_x86_64 pack_truncated).
Proof.
  assert (sigbus_jmp_set (tls pack_truncated) = false) as H1
    by (vm_compute; reflexivity).
  assert (in_bounds pack_file 4096 = true) as H2 by (vm_compute; reflexivity).
  split; [reflexivity|]. do 2 (split; [assumption|]).
  exact (proj2 (nested_guarded_read_aborts linux_x86_64 0 pack_file 4096 None
                  pack_truncated eq_refl H1 H2)).
Defined.

Lemma wpack_open_file :
  (let* _ := install_signal_handlers windows_x64 in
   open_file windows_x64 "pack.idx") (boot {[ "pack.idx" := plain two_pages ]})
  = Ok (Some wpack_file) wpack_ready.
Proof. apply value_of_Some. vm_compute. reflexivity. Qed.

(** C6 as stated fails on the Windows build, where nothing checks for
    nesting.  A guarded read inside the lambda of [safe_mmap_try] runs as
    any other: here its load faults, the inner [__except] takes the fault
    and the inner read returns [false]; the outer call then returns
    [true], and the process is not ended. *)
Lemma nested_guarded_read_windows :
  ¬ fails_fast
      (safe_mmap_try windows_x64 (read windows_x64 0 wpack_file 4096 None)
         wpack_truncated)
  ∧ value_of
      (safe_mmap_try windows_x64 (read windows_x64 0 wpack_file 4096 None)
         wpack_truncated)
    = Some (true, Some (false, None)).
Proof.
  assert (value_of
            (safe_mmap_try windows_x64 (read windows_x64 0 wpack_file 4096 None)
               wpack_truncated)
          = Some (true, Some (false, None))) as Hv by (vm_compute; reflexivity).
  split; [|exact Hv].
  intros (t & s & Hr). rewrite Hr in Hv. discriminate Hv.
Qed.

(** ** The guarded read against the naive read *)

Lemma naive_read_returns T restarts f offset st v st' :
  sigbus_jmp_set (tls st) = false →
  Naive.read T restarts f offset st = Ok v st' →
  in_bounds f offset = true
  ∧ ∃ bs, fetch (mem (os st)) (ptr_add (f_data f) offset) 8 = Loaded bs
          ∧ v = int64_of_bytes (endian T) bs.
Proof.
  intros Hflag. unfold in_bounds, Naive.read, bind, assert.
  destruct (offset <=? size_t_wrap (f_size f - sizeof_int64_t)); [|done].
  unfold load_int64, load_from, load_once, deliver. simpl.
  destruct (fetch _ _ _) as [bs|k] eqn:Hfetch.
  - intros [= <- <-]. eauto.
  - destruct (platform_of T) eqn:HT; [|done].
    destruct k; [|done].
    destruct (sigbus_action (os st)) eqn:Hact; [done|].
    rewrite handle_sigbus_not_armed by done.
    destruct (restart_spins T (int64_of_bytes (endian T)) restarts
                (ptr_add (f_data f) offset)
                (log (EvFault BusError) (log (EvLoad (ptr_add (f_data f) offset)) st))
                HT Hact Hflag Hfetch) as (s & -> & _).
    done.
Qed.

Lemma naive_read_loaded T restarts f offset st bs :
  in_bounds f offset = true →
  fetch (mem (os st)) (ptr_add (f_data f) offset) 8 = Loaded bs →
  Naive.read T restarts f offset st
  = Ok (int64_of_bytes (endian T) bs)
       (log (EvLoad (ptr_add (f_data f) offset)) st).
Proof.
  unfold in_bounds. intros Hb Hfetch.
  unfold Naive.read, bind, assert. rewrite Hb.
  unfold load_int64, load_from, load_once. simpl. by rewrite Hfetch.
Qed.

(** C7.  From a state with no recovery point active, the naive
    straight-line read returns a value exactly when the guarded read
    returns [true] with that value: on the executions without a fault
    the fault-recovery wrapping changes nothing in the result. *)
Theorem guarded_read_refines_naive T restarts f offset slot st v :
  sigbus_jmp_set (tls st) = false →
  (∃ s1, Naive.read T restarts f offset st = Ok v s1)
  ↔ (∃ s2, read T restarts f offset slot st = Ok (true, Some v) s2).
Proof.
  intros Hflag. split.
  - intros (s1 & Hnaive).
    apply naive_read_returns in Hnaive as (Hb & bs & Hfetch & ->); [|done].
    eexists. by apply read_loaded.
  - intros (s2 & Hread).
    apply read_returns in Hread
      as (Hb & _ & [(bs & Hfetch & [= ->] & _)|(_ & _ & [=] & _)]).
    eexists. by apply naive_read_loaded.
Qed.

Lemma guarded_read_refines_naive_witness :
  sigbus_jmp_set (tls scenario_open) = false
  ∧ ((∃ s1, Naive.read linux_x86_64 0 scenario_file 0 scenario_open = Ok 42 s1)
     ↔ (∃ s2, read linux_x86_64 0 scenario_file 0 None scenario_open
              = Ok (true, Some 42) s2)).
Proof.
  assert (sigbus_jmp_set (tls scenario_open) = false) as H1
    by (vm_compute; reflexivity).
  split; [assumption|].
  exact (guarded_read_refines_naive linux_x86_64 0 scenario_file 0 None
           scenario_open 42 H1).
Defined.

(** Both sides of the equivalence do hold there. *)
Example naive_read_scenario :
  value_of (Naive.read linux_x86_64 0 scenario_file 0 scenario_open) = Some 42.
Proof. vm_compute. reflexivity. Qed.

(** ** Failures of open_file *)

Ltac syscalls_only :=
  split; simpl; try done;
  first [ eexists []; split; [reflexivity|]
        | eexists [_]; split; [reflexivity|]
        | eexists [_; _]; split; [reflexivity|]
        | eexists [_; _; _]; split; [reflexivity|]
        | eexists [_; _; _; _]; split; [reflexivity|]
        | eexists [_; _; _; _; _]; split; [reflexivity|]
        | eexists [_; _; _; _; _; _]; split; [reflexivity|] ];
  split;
    [ repeat (apply NoDup_cons_2;
              [rewrite list_elem_of_In; simpl; intuition discriminate|]);
      apply NoDup_nil_2
    | by repeat constructor ].

Lemma back_cells_below base bs m a :
  a < base → back_cells base bs m !! a = m !! a.
Proof.
  revert base. induction bs as [|b bs IH]; intros base Ha; [done|].
  cbn [back_cells]. rewrite lookup_insert_ne by lia. apply IH. lia.
Qed.

Lemma map_path_sane path len st r st' :
  sane (os st) → map_path path len st = Ok r st' → sane (os st').
Proof.
  intros [Hlow Hhigh Hnull Hfiles]. unfold map_path.
  destruct (fs (os st) !! path) as [i|]; [|by intros [= <- <-]].
  destruct (_ && _) eqn:Hc; [|by intros [= <- <-]].
  intros [= <- <-].
  apply andb_prop in Hc as [Hc _]. apply andb_prop in Hc as [_ Hpos].
  apply Z.ltb_lt in Hpos. pose proof (round_up_page_ge len).
  split; simpl; [lia|done| |done].
  intros a Ha. rewrite back_cells_below by lia. by apply Hnull.
Qed.

Lemma open_file_posix_total path st :
  sane (os st) →
  ∃ r st',
    open_file_posix path st = Ok r st'
    ∧ only_syscalls st st'
    ∧ sane (os st')
    ∧ (cannot_stat path (os st) ∨ cannot_open path (os st)
       ∨ cannot_map path (os st) → r = None).
Proof.
  intros Hsane.
  unfold open_file_posix, bind, stat64, open_handle, mmap, ret. simpl.
  destruct (fs (os st) !! path) as [i|] eqn:Hi; simpl; rewrite ?Hi.
  2:{ eexists _, _. split; [done|]. split; [|done].
      syscalls_only. }
  destruct (readable i) eqn:Hr; simpl.
  2:{ eexists _, _. split; [done|]. split; [|done].
      syscalls_only. }
  case_bool_decide as Hlim; simpl.
  2:{ eexists _, _. split; [done|]. split; [|done].
      syscalls_only. }
  rewrite lookup_insert_eq.
  set (fd := fresh (dom (handles (os st)))).
  set (len := if regular i then Z.of_nat (length (contents i)) else 0).
  set (st2 := log (EvMmap len) _).
  assert (sane (os st2)) as Hsane2 by (by destruct Hsane).
  destruct (map_path path len st2) as [r st3| | |] eqn:Hmap.
  2-4: exfalso; unfold map_path in Hmap;
       destruct (fs (os st2) !! path); [destruct (_ && _)|]; done.
  pose proof (map_path_sane _ _ _ _ _ Hsane2 Hmap) as Hsane3.
  unfold map_path in Hmap. simpl in Hmap. rewrite Hi in Hmap.
  destruct (regular i && (0 <? len) && _) eqn:Hc.
  - injection Hmap as <- <-. eexists _, _. split; [done|].
    split; [|split; [done|]].
    + syscalls_only.
    + apply andb_prop in Hc as [Hc Hfit]. apply andb_prop in Hc as [Hreg Hpos].
      apply Z.ltb_lt in Hpos. apply Z.leb_le in Hfit.
      subst len. rewrite Hreg in *.
      intros [Hs|[(j & Hj & Hcause)|(j & Hj & Hcause)]].
      * unfold cannot_stat in Hs. congruence.
      * assert (j = i) as -> by congruence.
        destruct Hcause as [?|?]; [congruence|lia].
      * assert (j = i) as -> by congruence.
        destruct Hcause as [?|[Hnil|?]]; [congruence| |lia].
        rewrite Hnil in Hpos. simpl in Hpos. lia.
  - injection Hmap as <- <-. eexists _, _. split; [done|].
    split; [|done].
    syscalls_only.
Qed.

Lemma open_file_windows_total path st :
  sane (os st) →
  ∃ r st',
    open_file_windows path st = Ok r st'
    ∧ only_syscalls st st'
    ∧ sane (os st')
    ∧ (cannot_stat path (os st) ∨ cannot_open path (os st)
       ∨ cannot_map path (os st) → r = None).
Proof.
  intros Hsane.
  unfold open_file_windows, bind, open_handle, GetFileSizeEx, ret. simpl.
  destruct (fs (os st) !! path) as [i|] eqn:Hi; simpl.
  2:{ eexists _, _. split; [done|]. split; [|done]. syscalls_only. }
  destruct (readable i) eqn:Hr; simpl.
  2:{ eexists _, _. split; [done|]. split; [|done]. syscalls_only. }
  case_bool_decide as Hlim; simpl.
  2:{ eexists _, _. split; [done|]. split; [|done]. syscalls_only. }
  rewrite lookup_insert_eq, Hi.
  set (f := fresh (dom (handles (os st)))).
  destruct (regular i) eqn:Hreg; simpl.
  2:{ eexists _, _. split; [done|]. split; [|split; [by destruct Hsane|done]].
      syscalls_only. }
  unfold CreateFileMapping. simpl. rewrite lookup_insert_eq, Hi, Hreg. simpl.
  destruct (bool_decide (contents i ≠ []) && _) eqn:Hc; simpl.
  2:{ eexists _, _. split; [done|]. split; [|split; [by destruct Hsane|done]].
      syscalls_only. }
  apply andb_prop in Hc as [Hne Hlim2].
  apply bool_decide_eq_true in Hne.
  set (hs := <[f := OpenFile path]> (handles (os st))) in *.
  set (hmap := fresh (dom hs)).
  assert (hmap ≠ f) as Hhf.
  { intros Heq. apply (is_fresh (dom hs)). fold hmap. rewrite Heq.
    apply elem_of_dom. unfold hs. rewrite lookup_insert_eq. eauto. }
  pose proof (sane_files _ Hsane _ _ Hi) as Hlen.
  unfold size_t_wrap. rewrite Z.mod_small by lia.
  set (len := Z.of_nat (length (contents i))) in *.
  unfold MapViewOfFile. simpl. rewrite lookup_insert_eq.
  set (st2 := log (EvMmap len) _).
  assert (sane (os st2)) as Hsane2 by (by destruct Hsane).
  destruct (map_path path len st2) as [r st3| | |] eqn:Hmap.
  2-4: exfalso; unfold map_path in Hmap;
       destruct (fs (os st2) !! path); [destruct (_ && _)|]; done.
  pose proof (map_path_sane _ _ _ _ _ Hsane2 Hmap) as Hsane3.
  unfold map_path in Hmap. simpl in Hmap. rewrite Hi, Hreg in Hmap.
  unfold CloseHandle, modify. simpl.
  destruct (true && (0 <? len) && _) eqn:Hc.
  - injection Hmap as <- <-. eexists _, _. split; [done|].
    split; [|split; [by destruct Hsane3|]].
    + syscalls_only.
    + apply andb_prop in Hc as [Hpos Hfit]. simpl in Hpos.
      apply Z.ltb_lt in Hpos. apply Z.leb_le in Hfit.
      intros [Hs|[(j & Hj & Hcause)|(j & Hj & Hcause)]].
      * unfold cannot_stat in Hs. congruence.
      * assert (j = i) as -> by congruence.
        destruct Hcause as [?|?]; [congruence|lia].
      * assert (j = i) as -> by congruence.
        destruct Hcause as [?|[Hnil|?]]; [congruence|done|].
        fold len in H. lia.
  - injection Hmap as <- <-. eexists _, _. split; [done|].
    split; [|split; [by destruct Hsane|done]].
    split; simpl; try done.
    eexists [_; _; _; _; _; _]. split; [reflexivity|].
    split; [|by repeat constructor].
    apply NoDup_cons_2.
    { rewrite list_elem_of_In. simpl. intros [[=]|[?|[?|[?|[?|[]]]]]]; done. }
    repeat (apply NoDup_cons_2;
            [rewrite list_elem_of_In; simpl; intuition discriminate|]).
    apply NoDup_nil_2.
Qed.

Lemma open_file_total T path st :
  sane (os st) →
  ∃ r st',
    open_file T path st = Ok r st'
    ∧ only_syscalls st st'
    ∧ sane (os st')
    ∧ (cannot_stat path (os st) ∨ cannot_open path (os st)
       ∨ cannot_map path (os st) → r = None).
Proof.
  unfold open_file. destruct (platform_of T).
  - apply open_file_posix_total.
  - apply open_file_windows_total.
Qed.

Lemma install_signal_handlers_Ok T st :
  install_signal_handlers T st = Ok tt (installed T st).
Proof.
  unfold installed, install_signal_handlers.
  by destruct (platform_of T).
Qed.

Lemma installed_kernel T st :
  fs (os (installed T st)) = fs (os st)
  ∧ handles (os (installed T st)) = handles (os st)
  ∧ handle_limit (os (installed T st)) = handle_limit (os st)
  ∧ mem (os (installed T st)) = mem (os st)
  ∧ next_map (os (installed T st)) = next_map (os st)
  ∧ addr_limit (os (installed T st)) = addr_limit (os st).
Proof.
  unfold installed, install_signal_handlers. by destruct (platform_of T).
Qed.

Lemma installed_sane T st : sane (os st) → sane (os (installed T st)).
Proof.
  destruct (installed_kernel T st) as (Hfs & _ & _ & Hmem & Hnext & Hlim).
  intros [? ? ? ?]. split; rewrite ?Hfs, ?Hmem, ?Hnext, ?Hlim; done.
Qed.

Lemma null_member_load_faults T restarts st :
  sane (os st) →
  offsetof_size T < page_size →
  load_size_t T restarts (offsetof_size T) st
  = match platform_of T with
    | Posix => Terminated (Signalled SIGSEGV)
    | Windows => Unwinding (Seh EXCEPTION_ACCESS_VIOLATION)
    end (log (EvFault SegViolation) (log (EvLoad (offsetof_size T)) st)).
Proof.
  intros Hsane Hoff.
  unfold load_size_t, load_from, load_once, deliver. simpl.
  rewrite fetch_S, (sane_null _ Hsane) by done.
  by destruct (platform_of T).
Qed.

(** C8.  When the path cannot be stat'd, cannot be opened for reading,
    or cannot be mapped, [open_file] returns the null pointer to its
    caller after at most one attempt at each system call; and [main],
    given that null pointer, ends the process at its first use (the load
    of [f->size]), with no guarded read started and nothing printed. *)
Theorem open_failure_is_fatal T restarts prog path draws st :
  sane (os st) →
  offsetof_size T < page_size →
  cannot_stat path (os st) ∨ cannot_open path (os st) ∨ cannot_map path (os st) →
  (∃ s, open_file T path st = Ok None s ∧ only_syscalls st s)
  ∧ ∃ s1 s2,
      open_file T path (installed T st) = Ok None s1
      ∧ only_syscalls (installed T st) s1
      ∧ run T restarts 2 [prog; path] draws st = Terminated (crash T) s2
      ∧ trace s2 = EvFault SegViolation :: EvLoad (offsetof_size T) :: trace s1.
Proof.
  intros Hsane Hoff Hcause. split.
  - destruct (open_file_total T path st Hsane) as (r & s & Hopen & Hcalls & _ & Hr).
    rewrite (Hr Hcause) in Hopen. eauto.
  - pose proof (installed_sane T st Hsane) as Hsane0.
    destruct (installed_kernel T st) as (Hfs & Hh & Hhl & _ & Hnext & Hlim).
    destruct (open_file_total T path (installed T st) Hsane0)
      as (r & s1 & Hopen & Hcalls & Hsane1 & Hr).
    rewrite Hr in Hopen.
    2:{ unfold cannot_stat, cannot_open, cannot_map in *.
        by rewrite Hfs, Hh, Hhl, Hnext, Hlim. }
    exists s1. eexists. split; [done|]. split; [done|].
    unfold run, main. simpl.
    unfold bind at 1. rewrite install_signal_handlers_Ok.
    unfold bind at 1. rewrite Hopen.
    unfold bind at 1. unfold member_size.
    rewrite null_member_load_faults by done.
    unfold crash. destruct (platform_of T); split; reflexivity.
Qed.

Lemma open_failure_is_fatal_witness :
  let st := boot {[ "data.bin" := plain forty_two ]} in
  sane (os st)
  ∧ offsetof_size linux_x86_64 < page_size
  ∧ cannot_stat "nope.bin" (os st)
  ∧ (∃ s, open_file linux_x86_64 "nope.bin" st = Ok None s ∧ only_syscalls st s)
  ∧ ∃ s1 s2,
      open_file linux_x86_64 "nope.bin" (installed linux_x86_64 st) = Ok None s1
      ∧ only_syscalls (installed linux_x86_64 st) s1
      ∧ run linux_x86_64 0 2 ["prog"; "nope.bin"] [0; 8] st
        = Terminated (crash linux_x86_64) s2
      ∧ trace s2
        = EvFault SegViolation :: EvLoad (offsetof_size linux_x86_64) :: trace s1.
Proof.
  intros st.
  assert (sane (os st)) as H1 by (by apply boot_one_file_sane).
  assert (offsetof_size linux_x86_64 < page_size) as H2 by reflexivity.
  assert (cannot_stat "nope.bin" (os st)) as H3 by reflexivity.
  do 3 (split; [assumption|]).
  exact (open_failure_is_fatal linux_x86_64 0 "prog" "nope.bin" [0; 8] st
           H1 H2 (or_introl H3)).
Defined.

(** The other two causes, on the same machine. *)
Example unreadable_file_cannot_open :
  cannot_open "secret"
    (os (boot {[ "secret" := {| contents := forty_two; readable := false;
                                regular := true |} ]})).
Proof. eexists. split; [reflexivity|]. by left. Qed.

Example empty_file_cannot_map :
  cannot_map "empty" (os (boot {[ "empty" := plain [] ]})).
Proof. eexists. split; [reflexivity|]. right. by left. Qed.

(** ** The descriptor of the POSIX open_file *)

Lemma delete_posix_file_handles f st :
  f_kind f = posix_file →
  ∃ st', delete_file f st = Ok tt st' ∧ handles (os st') = handles (os st).
Proof.
  intros Hk. unfold delete_file. rewrite Hk. unfold munmap, modify. eauto.
Qed.

(** C10.  On the POSIX path a successful [open_file] takes a fresh
    descriptor from [open] and leaves it open: it is in the descriptor
    table when [open_file] returns, guarded reads do not touch the table,
    and it is still there after the [file] has been destroyed, so the
    table has one entry more than before the call. *)
Theorem posix_open_file_leaks_descriptor T restarts path st f st' :
  platform_of T = Posix →
  sane (os st) →
  open_file T path st = Ok (Some f) st' →
  ∃ fd,
    handles (os st) !! fd = None
    ∧ handles (os st') !! fd = Some (OpenFile path)
    ∧ (∀ o slot r s, read T restarts f o slot st' = Ok r s →
                     handles (os s) !! fd = Some (OpenFile path))
    ∧ ∃ st'',
        delete_file f st' = Ok tt st''
        ∧ handles (os st'') !! fd = Some (OpenFile path)
        ∧ size (handles (os st'')) = S (size (handles (os st))).
Proof.
  intros HT Hsane Hopen. unfold open_file in Hopen. rewrite HT in Hopen.
  destruct (open_file_posix_Some _ _ _ _ Hsane Hopen)
    as (i & fd & _ & _ & _ & Hfresh & Hh & _ & _ & _ & _ & Hk & _).
  exists fd. split; [done|].
  split; [by rewrite Hh, lookup_insert_eq|].
  split.
  - intros o slot r s Hread.
    by rewrite (read_returns_os _ _ _ _ _ _ _ _ Hread), Hh, lookup_insert_eq.
  - destruct (delete_posix_file_handles f st' Hk) as (st'' & Hdel & Hh'').
    exists st''. split; [done|]. rewrite Hh'', Hh.
    split; [by rewrite lookup_insert_eq|].
    by apply map_size_insert_None.
Qed.

Lemma posix_open_file_leaks_descriptor_witness :
  platform_of linux_x86_64 = Posix
  ∧ sane (os scenario_boot)
  ∧ open_file linux_x86_64 "data.bin" scenario_boot
    = Ok (Some scenario_file) scenario_open
  ∧ ∃ fd,
      handles (os scenario_boot) !! fd = None
      ∧ handles (os scenario_open) !! fd = Some (OpenFile "data.bin")
      ∧ (∀ o slot r s,
            read linux_x86_64 0 scenario_file o slot scenario_open = Ok r s →
            handles (os s) !! fd = Some (OpenFile "data.bin"))
      ∧ ∃ st'',
          delete_file scenario_file scenario_open = Ok tt st''
          ∧ handles (os st'') !! fd = Some (OpenFile "data.bin")
          ∧ size (handles (os st'')) = S (size (handles (os scenario_boot))).
Proof.
  assert (sane (os scenario_boot)) as H2 by (by apply boot_one_file_sane).
  split; [reflexivity|]. split; [assumption|].
  split; [exact scenario_open_file|].
  exact (posix_open_file_leaks_descriptor linux_x86_64 0 "data.bin"
           scenario_boot scenario_file scenario_open eq_refl H2
           scenario_open_file).
Defined.

(** The descriptor table before the call, after it, and after the
    [file] is deleted. *)
Example descriptor_table_after_delete :
  dom (handles (os scenario_boot)) = {[ 0; 1; 2 ]}%nat
  ∧ dom (handles (os scenario_open)) = {[ 0; 1; 2; 3 ]}%nat
  ∧ dom (handles (os (state_of (delete_file scenario_file scenario_open))))
    = {[ 0; 1; 2; 3 ]}%nat.
Proof. split_and!; vm_compute; reflexivity. Qed.

(** ** Several threads *)

Lemma step_steady T k th :
  steady k th →
  ∃ th', Concurrent.step T k th = inl th' ∧ steady k th'.
Proof.
  destruct th as [l p js v fin]. unfold steady, Concurrent.step. simpl.
  intros [Hjobs Hpc].
  destruct js as [|[f o] js]; [by eauto|].
  pose proof Hjobs as Hall.
  apply Forall_cons in Hjobs as [[Hb Hfetch] Hjobs]. simpl in Hb, Hfetch.
  destruct p; simpl.
  - rewrite Hb. eexists. split; [done|]. by split.
  - rewrite Hpc. eexists. split; [done|]. by split.
  - eexists. split; [done|]. by split.
  - eexists. split; [done|]. by split.
  - destruct Hpc as [Hset Hbuf].
    destruct Hfetch as [[bs ->]|[-> ->]].
    + eexists. split; [done|]. by split.
    + unfold handle_sigbus. simpl. rewrite Hset, Hbuf. simpl.
      rewrite decide_True by done.
      eexists. split; [done|]. split; [done|]. simpl. done.
  - eexists. split; [done|]. by split.
  - unfold sigsetjmp_value. destruct (c =? 0) eqn:Hc; [lia|]. rewrite Hc.
    eexists. split; [done|]. by split.
  - eexists. split; [done|]. by split.
Qed.

Lemma spawn_steady k jobs :
  Forall (Concurrent.survivable k) jobs → steady k (Concurrent.spawn jobs).
Proof. by split. Qed.

(** Under every schedule, each thread is where it would be had it run
    alone for as many statements as it was given. *)
Lemma run_schedule_isolated T sched P :
  Concurrent.ended P = None →
  (∀ t th, Concurrent.threads P !! t = Some th → steady (Concurrent.shared P) th) →
  Concurrent.ended (Concurrent.run_schedule T sched P) = None
  ∧ Concurrent.shared (Concurrent.run_schedule T sched P) = Concurrent.shared P
  ∧ ∀ t, Concurrent.threads (Concurrent.run_schedule T sched P) !! t
         = Nat.iter (turns t sched) (Concurrent.advance T (Concurrent.shared P))
             <$> Concurrent.threads P !! t.
Proof.
  revert P. induction sched as [|a sched IH]; intros P Hlive Hsteady.
  - split_and!; [done..|]. intros t. simpl. by destruct (_ !! t).
  - unfold Concurrent.run_schedule. cbn [foldl].
    fold (Concurrent.run_schedule T sched (Concurrent.pstep T P a)).
    unfold Concurrent.pstep at 1 2 3. rewrite Hlive.
    destruct (Concurrent.threads P !! a) as [th|] eqn:Hth.
    + destruct (step_steady T _ _ (Hsteady _ _ Hth)) as (th' & Hstep & Hsteady').
      rewrite Hstep.
      set (P1 := {| Concurrent.threads := <[a := th']> (Concurrent.threads P);
                    Concurrent.shared := Concurrent.shared P;
                    Concurrent.ended := None |}).
      destruct (IH P1) as (Hlive' & Hshared' & Hthreads'); [done| |].
      { intros t th1. simpl. rewrite lookup_insert.
        case_decide; [by intros [= <-]|by apply Hsteady]. }
      split_and!; [done..|].
      intros t. rewrite Hthreads'. simpl. unfold turns. rewrite filter_cons.
      destruct (decide (a = t)) as [<-|Hat].
      * rewrite lookup_insert_eq, Hth. cbn [fmap option_fmap option_map length].
        rewrite Nat.iter_succ_r.
        assert (Concurrent.advance T (Concurrent.shared P) th = th') as ->
          by (unfold Concurrent.advance; by rewrite Hstep).
        done.
      * by rewrite lookup_insert_ne.
    + destruct (IH P) as (Hlive' & Hshared' & Hthreads'); [done..|].
      split_and!; [done..|].
      intros t. rewrite Hthreads'. unfold turns. rewrite filter_cons.
      destruct (decide (a = t)) as [<-|Hat]; [|done]. by rewrite Hth.
Qed.

Lemma advance_idle T k th :
  Concurrent.pending th = [] → Concurrent.advance T k th = th.
Proof.
  intros H. unfold Concurrent.advance, Concurrent.step. by rewrite H.
Qed.

Lemma iter_advance_idle T k n th :
  Concurrent.pending th = [] → Nat.iter n (Concurrent.advance T k) th = th.
Proof.
  intros H. induction n as [|n IH]; [done|].
  simpl. rewrite IH. by apply advance_idle.
Qed.

(** The statements of a guarded read, one by one. *)
Section Statements.

Variable T : target.
Variable k : kernel.
Variables (f : file) (o : Z) (rest : list (file * Z)).
Variables (buf : option nat) (v : option Z) (fin : list (bool * option Z)).

Lemma advance_bounds_check :
  in_bounds f o = true →
  Concurrent.advance T k
    (thread_at (f, o) rest fin false buf Concurrent.AtBoundsCheck v)
  = thread_at (f, o) rest fin false buf Concurrent.AtNestingCheck v.
Proof.
  intros Hb. unfold Concurrent.advance, Concurrent.step. simpl. by rewrite Hb.
Qed.

Lemma advance_nesting_check :
  Concurrent.advance T k
    (thread_at (f, o) rest fin false buf Concurrent.AtNestingCheck v)
  = thread_at (f, o) rest fin false buf Concurrent.AtArm v.
Proof. reflexivity. Qed.

Lemma advance_arm :
  Concurrent.advance T k
    (thread_at (f, o) rest fin false buf Concurrent.AtArm v)
  = thread_at (f, o) rest fin true buf Concurrent.AtSetjmp v.
Proof. reflexivity. Qed.

Lemma advance_setjmp :
  Concurrent.advance T k
    (thread_at (f, o) rest fin true buf Concurrent.AtSetjmp v)
  = thread_at (f, o) rest fin true (Some (length fin)) Concurrent.AtLoad v.
Proof. reflexivity. Qed.

Lemma advance_load bs :
  fetch (mem k) (ptr_add (f_data f) o) 8 = Loaded bs →
  Concurrent.advance T k
    (thread_at (f, o) rest fin true (Some (length fin)) Concurrent.AtLoad v)
  = thread_at (f, o) rest fin true (Some (length fin)) Concurrent.AtDisarm
      (Some (int64_of_bytes (endian T) bs)).
Proof.
  intros Hfetch. unfold Concurrent.advance, Concurrent.step. simpl.
  by rewrite Hfetch.
Qed.

Lemma advance_load_fault :
  fetch (mem k) (ptr_add (f_data f) o) 8 = Faulted BusError →
  sigbus_action k = Handler_handle_sigbus →
  Concurrent.advance T k
    (thread_at (f, o) rest fin true (Some (length fin)) Concurrent.AtLoad v)
  = thread_at (f, o) rest fin false (Some (length fin))
      (Concurrent.AtResume (signum SIGBUS)) v.
Proof.
  intros Hfetch Hact. unfold Concurrent.advance, Concurrent.step. simpl.
  rewrite Hfetch, Hact. unfold handle_sigbus. simpl.
  by rewrite decide_True.
Qed.

Lemma advance_resume b :
  Concurrent.advance T k
    (thread_at (f, o) rest fin false b (Concurrent.AtResume (signum SIGBUS)) v)
  = thread_at (f, o) rest fin false b Concurrent.AtDisarmFault v.
Proof. reflexivity. Qed.

Lemma advance_disarm b w :
  Concurrent.advance T k
    (thread_at (f, o) rest fin true b Concurrent.AtDisarm w)
  = returned rest fin b (true, w).
Proof. reflexivity. Qed.

Lemma advance_disarm_fault b :
  Concurrent.advance T k
    (thread_at (f, o) rest fin false b Concurrent.AtDisarmFault v)
  = returned rest fin b (false, None).
Proof. reflexivity. Qed.

End Statements.

(** One guarded read of a thread running alone: six statements when the
    bytes are there, seven when the load faults and the handler jumps
    back. *)
Lemma solo_read T k th job rest :
  Concurrent.pending th = job :: rest →
  between_reads th →
  Concurrent.survivable k job →
  ∃ m th',
    (m ≤ 7)%nat
    ∧ Nat.iter m (Concurrent.advance T k) th = th'
    ∧ Concurrent.pending th' = rest
    ∧ Concurrent.finished th'
      = Concurrent.expected T k job :: Concurrent.finished th
    ∧ between_reads th'.
Proof.
  destruct th as [[set buf] p js v fin], job as [f o].
  unfold between_reads, Concurrent.survivable, Concurrent.expected. simpl.
  intros -> [-> ->] [Hb [[bs Hfetch]|[Hfetch Hact]]]; rewrite Hfetch;
    change (Concurrent.Build_thread _ _ _ _ _)
      with (thread_at (f, o) rest fin false buf Concurrent.AtBoundsCheck v).
  - exists 6%nat. eexists. split; [lia|]. split; [reflexivity|].
    cbn [Nat.iter nat_rect].
    rewrite advance_bounds_check, advance_nesting_check, advance_arm,
      advance_setjmp, (advance_load _ _ _ _ _ _ _ bs), advance_disarm by done.
    done.
  - exists 7%nat. eexists. split; [lia|]. split; [reflexivity|].
    cbn [Nat.iter nat_rect].
    rewrite advance_bounds_check, advance_nesting_check, advance_arm,
      advance_setjmp, advance_load_fault, advance_resume,
      advance_disarm_fault by done.
    done.
Qed.

(** All the reads of a thread running alone. *)
Lemma solo_completes T k th :
  between_reads th →
  Forall (Concurrent.survivable k) (Concurrent.pending th) →
  ∃ m th',
    (m ≤ 7 * length (Concurrent.pending th))%nat
    ∧ Nat.iter m (Concurrent.advance T k) th = th'
    ∧ Concurrent.pending th' = []
    ∧ Concurrent.finished th'
      = reverse (Concurrent.expected T k <$> Concurrent.pending th)
        ++ Concurrent.finished th
    ∧ between_reads th'.
Proof.
  remember (Concurrent.pending th) as js eqn:Hjs.
  revert th Hjs. induction js as [|job js IH]; intros th Hjs Hbetween Hjobs.
  - exists 0%nat, th. by split_and!.
  - apply Forall_cons in Hjobs as [Hjob Hjobs].
    destruct (solo_read T k th job js (eq_sym Hjs) Hbetween Hjob)
      as (m1 & th1 & Hm1 & Hrun1 & Hpend1 & Hfin1 & Hbetween1).
    destruct (IH th1 (eq_sym Hpend1) Hbetween1 Hjobs)
      as (m2 & th2 & Hm2 & Hrun2 & Hpend2 & Hfin2 & Hbetween2).
    exists (m2 + m1)%nat, th2. split_and!; [simpl; lia| |done| |done].
    + by rewrite Nat.iter_add, Hrun1.
    + rewrite Hfin2, Hfin1, fmap_cons, reverse_cons, <- app_assoc. done.
Qed.

(** The statement-level model agrees with [file::read]: what a thread
    is expected to get is what the guarded read returns in the state the
    thread sees. *)
Lemma expected_is_read T restarts k th job :
  platform_of T = Posix →
  sigbus_jmp_set (Concurrent.locals th) = false →
  Concurrent.survivable k job →
  value_of (read T restarts job.1 job.2 None (Concurrent.view k th))
  = Some (Concurrent.expected T k job).
Proof.
  destruct job as [f o]. unfold Concurrent.survivable, Concurrent.expected.
  simpl. intros HT Hflag [Hb [[bs Hfetch]|[Hfetch Hact]]]; rewrite Hfetch.
  - by rewrite (read_loaded T restarts f o None _ bs).
  - rewrite read_bus_error; try done. by intros _.
Qed.

(** C9.  Any number of threads, each with its own list of guarded reads
    (of the same or of different files, none nested), run under an
    arbitrary schedule.  The process is not terminated; every thread is
    exactly where it would be had it run alone for the statements it was
    given, so neither a read nor a fault recovery of one thread is seen by
    another; and a thread that was given enough statements has finished
    with the right result for each of its reads, in order, and with its
    recovery flag clear. *)
Theorem concurrent_reads_do_not_interfere
    T (sched : list nat) (jobs : gmap nat (list (file * Z))) (k : kernel) :
  (∀ t js, jobs !! t = Some js → Forall (Concurrent.survivable k) js) →
  let P := {| Concurrent.threads := Concurrent.spawn <$> jobs;
              Concurrent.shared := k; Concurrent.ended := None |} in
  let P' := Concurrent.run_schedule T sched P in
  Concurrent.ended P' = None
  ∧ ∀ t js, jobs !! t = Some js →
      Concurrent.threads P' !! t
      = Some (Nat.iter (turns t sched) (Concurrent.advance T k)
                (Concurrent.spawn js))
      ∧ ((7 * length js ≤ turns t sched)%nat →
         ∃ th',
           Concurrent.threads P' !! t = Some th'
           ∧ Concurrent.pending th' = []
           ∧ Concurrent.finished th'
             = reverse (Concurrent.expected T k <$> js)
           ∧ sigbus_jmp_set (Concurrent.locals th') = false).
Proof.
  intros Hjobs P P'.
  destruct (run_schedule_isolated T sched P eq_refl) as (Hlive & _ & Hthreads).
  { intros t th. simpl. rewrite lookup_fmap.
    destruct (jobs !! t) as [js|] eqn:Hjs; [|done].
    intros [= <-]. apply spawn_steady. by eapply Hjobs. }
  split; [done|]. intros t js Hjs.
  assert (Concurrent.threads P' !! t
          = Some (Nat.iter (turns t sched) (Concurrent.advance T k)
                    (Concurrent.spawn js))) as Hrun.
  { unfold P'. rewrite Hthreads. simpl. by rewrite lookup_fmap, Hjs. }
  split; [done|]. intros Hturns.
  destruct (solo_completes T k (Concurrent.spawn js))
    as (m & th' & Hm & Hsolo & Hpend & Hfin & _ & Hflag);
    [done | by eapply Hjobs |].
  simpl in Hm, Hfin. rewrite app_nil_r in Hfin.
  exists th'. split_and!; [|done..].
  rewrite Hrun. f_equal.
  replace (turns t sched) with ((turns t sched - m) + m)%nat by lia.
  rewrite Nat.iter_add, Hsolo. by apply iter_advance_idle.
Qed.

Lemma two_threads_survivable t js :
  two_threads !! t = Some js →
  Forall (Concurrent.survivable (os pack_truncated)) js.
Proof.
  assert (Concurrent.survivable (os pack_truncated) (pack_file, 0)) as H0.
  { split; [vm_compute; reflexivity|]. left. eexists. vm_compute. reflexivity. }
  assert (Concurrent.survivable (os pack_truncated) (pack_file, 4096)) as H1.
  { split; [vm_compute; reflexivity|]. right. split; vm_compute; reflexivity. }
  unfold two_threads. intros Hjs.
  apply lookup_insert_Some in Hjs as [[_ <-]|[_ Hjs]].
  - constructor; [assumption|]. constructor; [assumption|]. constructor.
  - apply lookup_singleton_Some in Hjs as [_ <-].
    constructor; [assumption|]. constructor; [assumption|]. constructor.
Qed.

Lemma concurrent_reads_do_not_interfere_witness :
  (∀ t js, two_threads !! t = Some js →
           Forall (Concurrent.survivable (os pack_truncated)) js)
  ∧ let P := {| Concurrent.threads := Concurrent.spawn <$> two_threads;
                Concurrent.shared := os pack_truncated;
                Concurrent.ended := None |} in
    let P' := Concurrent.run_schedule linux_x86_64 alternating P in
    Concurrent.ended P' = None
    ∧ ∀ t js, two_threads !! t = Some js →
        Concurrent.threads P' !! t
        = Some (Nat.iter (turns t alternating)
                  (Concurrent.advance linux_x86_64 (os pack_truncated))
                  (Concurrent.spawn js))
        ∧ ((7 * length js ≤ turns t alternating)%nat →
           ∃ th',
             Concurrent.threads P' !! t = Some th'
             ∧ Concurrent.pending th' = []
             ∧ Concurrent.finished th'
               = reverse (Concurrent.expected linux_x86_64 (os pack_truncated)
                            <$> js)
             ∧ sigbus_jmp_set (Concurrent.locals th') = false).
Proof.
  split; [exact two_threads_survivable|].
  exact (concurrent_reads_do_not_interfere linux_x86_64 alternating
           two_threads (os pack_truncated) two_threads_survivable).
Defined.

(** What the two threads have got at the end of that schedule. *)
Example two_threads_results :
  let P' :=
    Concurrent.run_schedule linux_x86_64 alternating
      {| Concurrent.threads := Concurrent.spawn <$> two_threads;
         Concurrent.shared := os pack_truncated; Concurrent.ended := None |} in
  Concurrent.finished <$> Concurrent.threads P' !! 0%nat
  = Some [(false, None); (true, Some 0x0707070707070707)]
  ∧ Concurrent.finished <$> Concurrent.threads P' !! 1%nat
    = Some [(true, Some 0x0707070707070707); (false, None)].
Proof. split; vm_compute; reflexivity. Qed.

(** ** Supplements *)

(** The decoded value is a 64-bit two's complement number: it lies in
    the range of [int64_t] and agrees with the unsigned value of the
    bytes modulo 2^64. *)
Lemma to_int64_range u :
  0 ≤ u < two64 →
  - 2 ^ 63 ≤ to_int64 u < 2 ^ 63 ∧ to_int64 u mod two64 = u.
Proof.
  intros Hu. unfold to_int64, two64 in *.
  destruct (u <? 2 ^ 63) eqn:Hlt.
  - apply Z.ltb_lt in Hlt. split; [lia|]. apply Z.mod_small. lia.
  - apply Z.ltb_ge in Hlt. split; [lia|].
    symmetry. apply (Z.mod_unique _ _ (-1)); lia.
Qed.

Lemma le_unsigned_range bs :
  Forall (λ b, 0 ≤ b < 256) bs →
  0 ≤ le_unsigned bs < 256 ^ Z.of_nat (length bs).
Proof.
  induction 1 as [|b bs Hb _ IH]; [simpl; lia|].
  cbn [le_unsigned length]. rewrite Nat2Z.inj_succ, Z.pow_succ_r by lia. lia.
Qed.

Lemma int64_of_bytes_range o bs :
  Forall (λ b, 0 ≤ b < 256) bs →
  length bs = 8%nat →
  - 2 ^ 63 ≤ int64_of_bytes o bs < 2 ^ 63
  ∧ int64_of_bytes o bs mod two64 = unsigned_of_bytes o bs.
Proof.
  intros Hbs Hlen. unfold int64_of_bytes. apply to_int64_range.
  assert (0 ≤ unsigned_of_bytes o bs < 256 ^ Z.of_nat 8) as H.
  { destruct o; simpl.
    - rewrite <- Hlen. by apply le_unsigned_range.
    - rewrite <- Hlen, <- (length_reverse bs).
      apply le_unsigned_range. by apply Forall_reverse. }
  unfold two64. lia.
Qed.

(** The third read of the scenario: offset 9 is out of bounds, and the
    process aborts in the state the read was called in. *)
Example scenario_offset_9_aborts :
  read linux_x86_64 0 scenario_file 9 None scenario_open
  = Terminated (Signalled SIGABRT) scenario_open.
Proof. apply read_beyond_end_aborts; vm_compute; (done || split; done). Qed.

(** The driver loop calls every guarded read with the recovery flag
    clear, and has it clear after any number of rounds. *)
Lemma main_loop_flag_clear T restarts f draws st st' :
  sigbus_jmp_set (tls st) = false →
  main_loop T restarts f draws st = Ok tt st' →
  sigbus_jmp_set (tls st') = false.
Proof.
  revert st. induction draws as [|d draws IH]; intros st Hflag.
  - by intros [= <-].
  - cbn [main_loop]. unfold bind at 1.
    destruct (read T restarts f (size_t_wrap d) None st) as [r s| | |] eqn:Hread;
      [|done..].
    pose proof (read_returns_disarmed _ _ _ _ _ _ _ _ Hflag Hread) as Hflag'.
    unfold bind at 1.
    destruct r as [[] [v|]]; unfold print, modify; apply IH; done.
Qed.

(** * Further properties *)

(** ** More on the bounds check *)

(** X1.  What [assert(offset <= size - sizeof(int64_t))] accepts, for
    offsets and sizes that are [size_t] values: with eight bytes or more
    in the file, exactly the offsets with [offset + 8 <= size]; with
    fewer, because the subtraction wraps, exactly the offsets up to
    [2^64 - 8 + size]. *)
Theorem bounds_check_exact f o :
  0 ≤ f_size f < two64 →
  0 ≤ o < two64 →
  in_bounds f o = true
  ↔ if decide (8 ≤ f_size f) then o + 8 ≤ f_size f
    else o ≤ two64 - 8 + f_size f.
Proof.
  intros Hsize Ho. unfold in_bounds, size_t_wrap, sizeof_int64_t, two64 in *.
  rewrite Z.leb_le. case_decide as H8.
  - rewrite Z.mod_small by lia. lia.
  - rewrite <- (Z.mod_unique (f_size f - 8) (2 ^ 64) (-1) (f_size f - 8 + 2 ^ 64))
      by lia.
    lia.
Qed.

Lemma bounds_check_exact_witness :
  0 ≤ f_size scenario_file < two64
  ∧ 0 ≤ 9 < two64
  ∧ (in_bounds scenario_file 9 = true
     ↔ if decide (8 ≤ f_size scenario_file) then 9 + 8 ≤ f_size scenario_file
       else 9 ≤ two64 - 8 + f_size scenario_file).
Proof.
  assert (0 ≤ f_size scenario_file < two64) as H1 by (vm_compute; split; congruence).
  assert (0 ≤ 9 < two64) as H2 by (vm_compute; split; congruence).
  split; [exact H1|]. split; [exact H2|].
  exact (bounds_check_exact scenario_file 9 H1 H2).
Defined.

(** ** Every way a guarded read goes *)

Lemma read_seg_violation T restarts f offset slot st :
  in_bounds f offset = true →
  sigbus_jmp_set (tls st) = false →
  fetch (mem (os st)) (ptr_add (f_data f) offset) 8 = Faulted SegViolation →
  read T restarts f offset slot st
  = match platform_of T with
    | Posix => Terminated (Signalled SIGSEGV)
    | Windows => Unwinding (Seh EXCEPTION_ACCESS_VIOLATION)
    end (log (EvFault SegViolation)
           (log (EvLoad (ptr_add (f_data f) offset)) (armed T st))).
Proof.
  unfold in_bounds. intros Hb Hflag Hfetch.
  unfold read, bind, assert, safe_mmap_try, armed. rewrite Hb.
  unfold load_int64, load_from, load_once, deliver.
  destruct (platform_of T) eqn:HT; simpl.
  - unfold bind, gets, assert, modify. rewrite Hflag. simpl.
    unfold after_sigsetjmp, bind. simpl. by rewrite Hfetch.
  - by rewrite Hfetch.
Qed.

(** With the recovery flag clear and the handler in place, what a
    guarded read does is a function of the bounds check and of what the
    load finds. *)
Lemma read_cases T restarts f offset slot st :
  sigbus_jmp_set (tls st) = false →
  handler_ready T st →
  read T restarts f offset slot st
  = if in_bounds f offset then
      match fetch (mem (os st)) (ptr_add (f_data f) offset) 8 with
      | Loaded bs =>
          Ok (true, Some (int64_of_bytes (endian T) bs))
             (disarmed T (log (EvLoad (ptr_add (f_data f) offset)) (armed T st)))
      | Faulted BusError =>
          Ok (false, slot)
             (disarmed T (log (EvFault BusError)
                            (log (EvLoad (ptr_add (f_data f) offset))
                               (armed T st))))
      | Faulted SegViolation =>
          match platform_of T with
          | Posix => Terminated (Signalled SIGSEGV)
          | Windows => Unwinding (Seh EXCEPTION_ACCESS_VIOLATION)
          end (log (EvFault SegViolation)
                 (log (EvLoad (ptr_add (f_data f) offset)) (armed T st)))
      end
    else Terminated (Signalled SIGABRT) st.
Proof.
  intros Hflag Hready.
  destruct (in_bounds f offset) eqn:Hb; [|by apply read_out_of_bounds].
  destruct (fetch _ _ _) as [bs|[]] eqn:Hfetch.
  - by apply read_loaded.
  - by apply read_bus_error.
  - by apply read_seg_violation.
Qed.

(** X2.  Called with the recovery flag clear and the handler in place,
    a guarded read never ends the process with SIGBUS and never spins on
    a faulting load: it returns, or the process ends on the assertion or
    on a segmentation fault (on Windows: an access violation leaves for
    an outer filter). *)
Theorem guarded_read_contains_bus_errors T restarts f offset slot st :
  sigbus_jmp_set (tls st) = false →
  handler_ready T st →
  contained T (read T restarts f offset slot st).
Proof.
  intros Hflag Hready. rewrite read_cases by done.
  destruct (in_bounds f offset); [|done].
  destruct (fetch _ _ _) as [bs|[]]; [done..|].
  unfold contained. by destruct (platform_of T).
Qed.

Lemma guarded_read_contains_bus_errors_witness :
  sigbus_jmp_set (tls pack_truncated) = false
  ∧ handler_ready linux_x86_64 pack_truncated
  ∧ contained linux_x86_64
      (read linux_x86_64 0 pack_file 4096 None pack_truncated).
Proof.
  assert (sigbus_jmp_set (tls pack_truncated) = false) as H1
    by (vm_compute; reflexivity).
  assert (handler_ready linux_x86_64 pack_truncated) as H2
    by (intros _; vm_compute; reflexivity).
  split; [exact H1|]. split; [exact H2|].
  exact (guarded_read_contains_bus_errors linux_x86_64 0 pack_file 4096 None
           pack_truncated H1 H2).
Defined.

Lemma main_loop_contained T restarts f draws st :
  sigbus_jmp_set (tls st) = false →
  handler_ready T st →
  contained T (main_loop T restarts f draws st).
Proof.
  revert st. induction draws as [|d draws IH]; intros st Hflag Hready; [done|].
  cbn [main_loop]. unfold bind at 1.
  destruct (read T restarts f (size_t_wrap d) None st) as [r s|u s|t s|s]
    eqn:Hread.
  - pose proof (read_returns_disarmed _ _ _ _ _ _ _ _ Hflag Hread) as Hflag'.
    pose proof (read_returns_os _ _ _ _ _ _ _ _ Hread) as Hos.
    assert (handler_ready T s) as Hready'
      by (intros HT; rewrite Hos; by apply Hready).
    unfold bind at 1.
    destruct r as [[] [v|]]; unfold print, modify; by apply IH.
  - rewrite read_cases in Hread by done.
    destruct (in_bounds f (size_t_wrap d)); [|done].
    destruct (fetch _ _ _) as [bs|[]]; [done..|].
    destruct (platform_of T) eqn:HT; [done|].
    injection Hread as <- <-. unfold contained. by rewrite HT.
  - rewrite read_cases in Hread by done.
    destruct (in_bounds f (size_t_wrap d)).
    + destruct (fetch _ _ _) as [bs|[]]; [done..|].
      destruct (platform_of T) eqn:HT; [|done].
      injection Hread as <- <-. unfold contained. by rewrite HT.
    + by injection Hread as <- <-.
  - rewrite read_cases in Hread by done.
    destruct (in_bounds f (size_t_wrap d)); [|done].
    destruct (fetch _ _ _) as [bs|[]]; [done..|].
    by destruct (platform_of T).
Qed.

(** X3.  The driver loop, entered as [main] enters it (recovery flag
    clear, handler installed), is never killed by SIGBUS and never hangs
    on a faulting load, whatever offsets are drawn and whatever storage
    is lost: after any number of rounds it is still running, or the
    process ended on the assertion or on a segmentation fault. *)
Theorem driver_loop_contains_bus_errors T restarts f draws st :
  sigbus_jmp_set (tls st) = false →
  handler_ready T st →
  contained T (main_loop T restarts f draws st)
  ∧ (∀ s, main_loop T restarts f draws st ≠ Terminated (Signalled SIGBUS) s)
  ∧ (∀ s, main_loop T restarts f draws st ≠ Spinning s).
Proof.
  intros Hflag Hready.
  pose proof (main_loop_contained T restarts f draws st Hflag Hready) as H.
  split; [done|].
  split; intros s Hs; by rewrite Hs in H.
Qed.

Lemma driver_loop_contains_bus_errors_witness :
  sigbus_jmp_set (tls pack_truncated) = false
  ∧ handler_ready linux_x86_64 pack_truncated
  ∧ contained linux_x86_64
      (main_loop linux_x86_64 0 pack_file [4096; 0; 4100] pack_truncated)
  ∧ (∀ s, main_loop linux_x86_64 0 pack_file [4096; 0; 4100] pack_truncated
          ≠ Terminated (Signalled SIGBUS) s)
  ∧ (∀ s, main_loop linux_x86_64 0 pack_file [4096; 0; 4100] pack_truncated
          ≠ Spinning s).
Proof.
  assert (sigbus_jmp_set (tls pack_truncated) = false) as H1
    by (vm_compute; reflexivity).
  assert (handler_ready linux_x86_64 pack_truncated) as H2
    by (intros _; vm_compute; reflexivity).
  split; [exact H1|]. split; [exact H2|].
  exact (driver_loop_contains_bus_errors linux_x86_64 0 pack_file
           [4096; 0; 4100] pack_truncated H1 H2).
Defined.

(** ** Faults that are not recovered *)

(** X4.  Only the loss of storage is turned into a failed read.  When
    the address of a guarded load is not mapped at all, [safe_mmap_try]
    does not take the fault: on POSIX the process is killed by SIGSEGV,
    for which no handler is installed; on Windows the filter answers
    EXCEPTION_CONTINUE_SEARCH and the access violation leaves the call.
    The driver loop ends there: nothing is printed, and the remaining
    rounds are not run. *)
Theorem segmentation_fault_not_absorbed T restarts f d draws st :
  sigbus_jmp_set (tls st) = false →
  in_bounds f (size_t_wrap d) = true →
  fetch (mem (os st)) (ptr_add (f_data f) (size_t_wrap d)) 8
  = Faulted SegViolation →
  ∃ s,
    main_loop T restarts f (d :: draws) st
    = match platform_of T with
      | Posix => Terminated (Signalled SIGSEGV)
      | Windows => Unwinding (Seh EXCEPTION_ACCESS_VIOLATION)
      end s
    ∧ printed s = printed st.
Proof.
  intros Hflag Hb Hfetch. eexists. split.
  - cbn [main_loop]. unfold bind at 1.
    rewrite read_seg_violation by done. by destruct (platform_of T).
  - unfold armed, printed. by destruct (platform_of T).
Qed.

Lemma segmentation_fault_not_absorbed_witness :
  sigbus_jmp_set (tls tiny_open) = false
  ∧ in_bounds tiny_file (size_t_wrap 8192) = true
  ∧ fetch (mem (os tiny_open)) (ptr_add (f_data tiny_file) (size_t_wrap 8192)) 8
    = Faulted SegViolation
  ∧ ∃ s,
      main_loop linux_x86_64 0 tiny_file [8192; 0] tiny_open
      = match platform_of linux_x86_64 with
        | Posix => Terminated (Signalled SIGSEGV)
        | Windows => Unwinding (Seh EXCEPTION_ACCESS_VIOLATION)
        end s
      ∧ printed s = printed tiny_open.
Proof.
  assert (sigbus_jmp_set (tls tiny_open) = false) as H1
    by (vm_compute; reflexivity).
  assert (in_bounds tiny_file (size_t_wrap 8192) = true) as H2
    by (vm_compute; reflexivity).
  assert (fetch (mem (os tiny_open))
            (ptr_add (f_data tiny_file) (size_t_wrap 8192)) 8
          = Faulted SegViolation) as H3 by (vm_compute; reflexivity).
  split; [exact H1|]. split; [exact H2|]. split; [exact H3|].
  exact (segmentation_fault_not_absorbed linux_x86_64 0 tiny_file 8192 [0]
           tiny_open H1 H2 H3).
Defined.

(** X5.  The recovery in [safe_mmap_try] depends on
    [install_signal_handlers] having run.  On POSIX, with SIGBUS at its
    default disposition, a guarded load whose storage is gone kills the
    process with SIGBUS, the recovery flag still set. *)
Theorem guarded_read_needs_handler T restarts f offset slot st :
  platform_of T = Posix →
  sigbus_action (os st) = SIG_DFL →
  sigbus_jmp_set (tls st) = false →
  in_bounds f offset = true →
  fetch (mem (os st)) (ptr_add (f_data f) offset) 8 = Faulted BusError →
  ∃ s,
    read T restarts f offset slot st = Terminated (Signalled SIGBUS) s
    ∧ sigbus_jmp_set (tls s) = true.
Proof.
  unfold in_bounds. intros HT Hact Hflag Hb Hfetch.
  unfold read, bind, assert, safe_mmap_try. rewrite Hb, HT.
  unfold bind, gets, assert, modify. rewrite Hflag. simpl.
  unfold after_sigsetjmp, bind, load_int64, load_from, load_once, deliver.
  simpl. rewrite Hfetch, HT, Hact. eauto.
Qed.

Lemma guarded_read_needs_handler_witness :
  platform_of linux_x86_64 = Posix
  ∧ sigbus_action (os scenario_lost) = SIG_DFL
  ∧ sigbus_jmp_set (tls scenario_lost) = false
  ∧ in_bounds scenario_file 8 = true
  ∧ fetch (mem (os scenario_lost)) (ptr_add (f_data scenario_file) 8) 8
    = Faulted BusError
  ∧ ∃ s,
      read linux_x86_64 0 scenario_file 8 None scenario_lost
      = Terminated (Signalled SIGBUS) s
      ∧ sigbus_jmp_set (tls s) = true.
Proof.
  assert (sigbus_action (os scenario_lost) = SIG_DFL) as H2
    by (vm_compute; reflexivity).
  assert (sigbus_jmp_set (tls scenario_lost) = false) as H3
    by (vm_compute; reflexivity).
  assert (in_bounds scenario_file 8 = true) as H4 by (vm_compute; reflexivity).
  assert (fetch (mem (os scenario_lost)) (ptr_add (f_data scenario_file) 8) 8
          = Faulted BusError) as H5 by (vm_compute; reflexivity).
  split; [reflexivity|]. split; [exact H2|]. split; [exact H3|].
  split; [exact H4|]. split; [exact H5|].
  exact (guarded_read_needs_handler linux_x86_64 0 scenario_file 8 None
           scenario_lost eq_refl H2 H3 H4 H5).
Defined.

(** ** The out-parameter *)

(** X6.  [*result] is written only by a read that succeeds.  A guarded
    read that returns [false] leaves the caller's variable as it was (its
    load met lost storage); one that returns [true] has stored the value
    it loaded there.  Either way the mappings, the handle table and the
    disposition of SIGBUS are as before the call. *)
Theorem read_writes_result_only_on_success
    T restarts f offset slot st b r st' :
  read T restarts f offset slot st = Ok (b, r) st' →
  os st' = os st
  ∧ if b
    then ∃ bs, fetch (mem (os st)) (ptr_add (f_data f) offset) 8 = Loaded bs
               ∧ r = Some (int64_of_bytes (endian T) bs)
    else r = slot
         ∧ fetch (mem (os st)) (ptr_add (f_data f) offset) 8 = Faulted BusError.
Proof.
  intros Hread. split; [by eapply read_returns_os|].
  apply read_returns in Hread
    as (_ & _ & [(bs & Hfetch & [= -> ->] & _)|(Hfetch & _ & [= -> ->] & _)]);
    eauto.
Qed.

Lemma read_writes_result_only_on_success_witness :
  read linux_x86_64 0 pack_file 4096 (Some 5) pack_truncated
  = Ok (false, Some 5)
       (state_of (read linux_x86_64 0 pack_file 4096 (Some 5) pack_truncated))
  ∧ os (state_of (read linux_x86_64 0 pack_file 4096 (Some 5) pack_truncated))
    = os pack_truncated
  ∧ Some 5 = Some 5
  ∧ fetch (mem (os pack_truncated)) (ptr_add (f_data pack_file) 4096) 8
    = Faulted BusError.
Proof.
  assert (value_of (read linux_x86_64 0 pack_file 4096 (Some 5) pack_truncated)
          = Some (false, Some 5)) as H0 by (vm_compute; reflexivity).
  pose proof (value_of_Some _ _ H0) as H1.
  split; [exact H1|].
  exact (read_writes_result_only_on_success linux_x86_64 0 pack_file 4096
           (Some 5) pack_truncated false (Some 5) _ H1).
Defined.

(** ** When open_file succeeds *)

Lemma open_file_posix_mappable path i st :
  sane (os st) →
  mappable path i (os st) →
  (size (handles (os st)) < handle_limit (os st))%nat →
  ∃ f st',
    open_file_posix path st = Ok (Some f) st'
    ∧ maps_file i st st' f
    ∧ f_kind f = posix_file
    ∧ handles (os st')
      = <[fresh (dom (handles (os st))) := OpenFile path]> (handles (os st)).
Proof.
  intros Hsane (Hi & Hr & Hreg & Hne & Hfit) Hlim.
  pose proof (sane_files _ Hsane _ _ Hi) as Hlen.
  unfold open_file_posix, bind, stat64, open_handle, mmap, ret. simpl.
  rewrite Hi. simpl. rewrite Hi, Hr, Hreg. simpl.
  rewrite bool_decide_eq_true_2 by done. simpl.
  rewrite lookup_insert_eq.
  unfold map_path. simpl. rewrite Hi, Hreg. simpl.
  assert (0 < Z.of_nat (length (contents i))) as Hpos
    by (destruct (contents i); [done|simpl; lia]).
  rewrite (proj2 (Z.ltb_lt _ _) Hpos), (proj2 (Z.leb_le _ _) Hfit). simpl.
  eexists _, _. split; [reflexivity|].
  rewrite Nat2Z.id, firstn_all.
  split_and!; [|done..].
  split; simpl; try done.
  unfold size_t_wrap. apply Z.mod_small. lia.
Qed.

Lemma open_file_windows_mappable path i st :
  sane (os st) →
  mappable path i (os st) →
  (S (size (handles (os st))) < handle_limit (os st))%nat →
  ∃ f st' hmap,
    open_file_windows path st = Ok (Some f) st'
    ∧ maps_file i st st' f
    ∧ f_kind f = windows_file hmap
    ∧ handles (os st) !! hmap = None
    ∧ handles (os st') = <[hmap := FileMapping path]> (handles (os st)).
Proof.
  intros Hsane (Hi & Hr & Hreg & Hne & Hfit) Hlim.
  pose proof (sane_files _ Hsane _ _ Hi) as Hlen.
  assert (0 < Z.of_nat (length (contents i))) as Hpos
    by (destruct (contents i); [done|simpl; lia]).
  set (h := fresh (dom (handles (os st)))).
  assert (handles (os st) !! h = None) as Hh
    by apply not_elem_of_dom, is_fresh.
  set (hs := <[h := OpenFile path]> (handles (os st))).
  set (hmap := fresh (dom hs)).
  assert (hs !! hmap = None) as Hhmap by apply not_elem_of_dom, is_fresh.
  assert (hmap ≠ h) as Hne'.
  { intros Heq. rewrite Heq in Hhmap. unfold hs in Hhmap.
    by rewrite lookup_insert_eq in Hhmap. }
  assert (handles (os st) !! hmap = None) as Hhmap0.
  { unfold hs in Hhmap. by rewrite lookup_insert_ne in Hhmap. }
  unfold open_file_windows, bind, open_handle, GetFileSizeEx, ret. simpl.
  rewrite Hi, Hr. simpl.
  rewrite bool_decide_eq_true_2 by lia. simpl.
  rewrite lookup_insert_eq, Hi, Hreg.
  unfold CreateFileMapping. simpl. rewrite lookup_insert_eq, Hi, Hreg. simpl.
  rewrite (bool_decide_eq_true_2 (contents i ≠ [])) by done. simpl.
  fold h. fold hs.
  rewrite bool_decide_eq_true_2
    by (unfold hs; rewrite map_size_insert_None by done; lia).
  unfold size_t_wrap. rewrite Z.mod_small by lia.
  unfold MapViewOfFile. simpl. fold hmap. rewrite lookup_insert_eq.
  unfold map_path. simpl. rewrite Hi, Hreg. simpl.
  rewrite (proj2 (Z.ltb_lt _ _) Hpos), (proj2 (Z.leb_le _ _) Hfit). simpl.
  unfold CloseHandle, modify. simpl.
  eexists _, _, hmap. split; [reflexivity|].
  rewrite Nat2Z.id, firstn_all.
  split_and!; [|done|done|].
  - split; simpl; done.
  - simpl. unfold hs. rewrite delete_insert_ne by done.
    by rewrite delete_insert_id.
Qed.

(** When the mapping object cannot be created (the file is empty, or
    the handle table has no second free entry) the Windows [open_file]
    returns with the file handle still open. *)
Lemma open_file_windows_no_mapping_object path i st :
  fs (os st) !! path = Some i →
  readable i = true →
  regular i = true →
  (size (handles (os st)) < handle_limit (os st))%nat →
  contents i = [] ∨ (handle_limit (os st) ≤ S (size (handles (os st))))%nat →
  ∃ st',
    open_file_windows path st = Ok None st'
    ∧ handles (os st')
      = <[fresh (dom (handles (os st))) := OpenFile path]> (handles (os st)).
Proof.
  intros Hi Hr Hreg Hlim Hcause.
  assert (handles (os st) !! fresh (dom (handles (os st))) = None) as Hh
    by apply not_elem_of_dom, is_fresh.
  unfold open_file_windows, bind, open_handle, GetFileSizeEx, ret. simpl.
  rewrite Hi, Hr. simpl.
  rewrite bool_decide_eq_true_2 by lia. simpl.
  rewrite lookup_insert_eq, Hi, Hreg.
  unfold CreateFileMapping. simpl. rewrite lookup_insert_eq, Hi, Hreg. simpl.
  destruct Hcause as [Hnil|Hfull].
  - rewrite (bool_decide_eq_false_2 (contents i ≠ []))
      by (rewrite Hnil; intros H; by apply H).
    simpl. eauto.
  - rewrite (bool_decide_eq_false_2 (_ < _)%nat), andb_false_r
      by (rewrite map_size_insert_None by done; lia).
    eauto.
Qed.

Lemma open_file_Some T path st f st' :
  sane (os st) →
  open_file T path st = Ok (Some f) st' →
  ∃ i,
    mappable path i (os st)
    ∧ (size (handles (os st)) + handles_needed T ≤ handle_limit (os st))%nat
    ∧ maps_file i st st' f
    ∧ holds_handle T path st st' f.
Proof.
  intros Hsane Hopen.
  assert (∀ P : Prop,
            (cannot_stat path (os st) ∨ cannot_open path (os st)
             ∨ cannot_map path (os st)) → P) as Hno.
  { intros P Hcause.
    destruct (open_file_total T path st Hsane) as (r & s & Heq & _ & _ & Hr).
    rewrite Hopen in Heq. injection Heq as <- <-. by specialize (Hr Hcause). }
  destruct (fs (os st) !! path) as [i|] eqn:Hi; [|by apply Hno; left].
  destruct (readable i) eqn:Hr;
    [|apply Hno; right; left; exists i; by eauto].
  destruct (decide (size (handles (os st)) < handle_limit (os st))%nat)
    as [Hlim|Hlim];
    [|apply Hno; right; left; exists i; split; [done|right; lia]].
  destruct (regular i) eqn:Hreg;
    [|apply Hno; right; right; exists i; by eauto].
  destruct (decide (contents i = [])) as [Hnil|Hne];
    [apply Hno; right; right; exists i; by eauto|].
  destruct (decide (next_map (os st)
                    + round_up_page (Z.of_nat (length (contents i)))
                    ≤ addr_limit (os st))) as [Hfit|Hfit];
    [|apply Hno; right; right; exists i; split; [done|right; right; lia]].
  assert (mappable path i (os st)) as Hmappable by done.
  exists i. split; [done|].
  unfold open_file, handles_needed, holds_handle in *.
  destruct (platform_of T).
  - destruct (open_file_posix_mappable path i st Hsane Hmappable Hlim)
      as (f0 & st0 & Heq & Hmaps & Hkind & Hh).
    rewrite Hopen in Heq. injection Heq as <- <-.
    split_and!; [lia|done..|].
    eexists. split; [|done]. apply not_elem_of_dom, is_fresh.
  - destruct (decide (S (size (handles (os st))) < handle_limit (os st))%nat)
      as [Hlim2|Hlim2].
    + destruct (open_file_windows_mappable path i st Hsane Hmappable Hlim2)
        as (f0 & st0 & hmap & Heq & Hmaps & Hkind & Hfresh & Hh).
      rewrite Hopen in Heq. injection Heq as <- <-.
      split_and!; [lia|done|]. eauto.
    + destruct (open_file_windows_no_mapping_object path i st Hi Hr Hreg Hlim)
        as (s & Heq & _); [right; lia|].
      rewrite Hopen in Heq. done.
Qed.

(** What a mapping of the whole of [i] at [next_map] makes readable. *)
Lemma maps_file_mapped i st st' f :
  maps_file i st st' f → mapped_at (mem (os st')) (f_data f) (contents i).
Proof.
  intros Hm. rewrite (maps_mem _ _ _ _ Hm), (maps_data _ _ _ _ Hm).
  unfold span_of. pose proof (round_up_page_ge (Z.of_nat (length (contents i)))).
  unfold resize. rewrite resize_ge by lia. apply back_cells_mapped.
Qed.

Lemma open_file_mappable T path i st :
  sane (os st) →
  mappable path i (os st) →
  (size (handles (os st)) + handles_needed T ≤ handle_limit (os st))%nat →
  ∃ f st', open_file T path st = Ok (Some f) st'.
Proof.
  intros Hsane Hmappable Hfree.
  unfold open_file, handles_needed in *. destruct (platform_of T).
  - destruct (open_file_posix_mappable path i st Hsane Hmappable)
      as (f & st' & Hopen & _); [lia|eauto].
  - destruct (open_file_windows_mappable path i st Hsane Hmappable)
      as (f & st' & hmap & Hopen & _); [lia|eauto].
Qed.



(** The scenario file is mappable, so both sides hold there. *)
Example scenario_file_mappable :
  mappable "data.bin" (plain forty_two) (os scenario_boot)
  ∧ (size (handles (os scenario_boot)) + handles_needed windows_x64
     ≤ handle_limit (os scenario_boot))%nat.
Proof.
  split; [|vm_compute; lia].
  split_and!; [reflexivity..|done|vm_compute; congruence].
Qed.

(** ** Opening, then reading *)

(** X8.  A file that [open_file] has opened is mapped in full and as it
    is: [size] is the length of the file, and a guarded read at any
    offset with [0 <= o <= size - 8], from the state [open_file] returned
    in, succeeds with the eight bytes of the file at [o]. *)
Theorem open_then_read T restarts path st f st' o slot :
  sane (os st) →
  sigbus_jmp_set (tls st) = false →
  open_file T path st = Ok (Some f) st' →
  0 ≤ o ≤ f_size f - 8 →
  ∃ i s,
    fs (os st) !! path = Some i
    ∧ f_size f = Z.of_nat (length (contents i))
    ∧ read T restarts f o slot st'
      = Ok (true,
            Some (int64_of_bytes (endian T)
                    (take 8 (drop (Z.to_nat o) (contents i)))))
           s.
Proof.
  intros Hsane Hflag Hopen Ho.
  destruct (open_file_Some T path st f st' Hsane Hopen)
    as (i & (Hi & _ & _ & _ & Hfit) & _ & Hmaps & _).
  pose proof (maps_file_mapped _ _ _ _ Hmaps) as Hmapped.
  pose proof (maps_size _ _ _ _ Hmaps) as Hsize.
  pose proof (maps_data _ _ _ _ Hmaps) as Hdata.
  pose proof (round_up_page_ge (Z.of_nat (length (contents i)))) as Hup.
  destruct Hsane as [Hlow Hhigh _ _]. unfold page_size in Hlow.
  exists i. eexists. split; [done|]. split; [done|].
  apply read_loaded.
  - unfold in_bounds, size_t_wrap, sizeof_int64_t.
    rewrite Z.mod_small by lia. apply Z.leb_le. lia.
  - by rewrite (maps_tls _ _ _ _ Hmaps).
  - unfold ptr_add, size_t_wrap. rewrite Z.mod_small by lia.
    rewrite <- (Z2Nat.id o) at 1 by lia.
    apply fetch_window; [done|lia].
Qed.

Lemma open_then_read_witness :
  sane (os scenario_boot)
  ∧ sigbus_jmp_set (tls scenario_boot) = false
  ∧ open_file linux_x86_64 "data.bin" scenario_boot
    = Ok (Some scenario_file) scenario_open
  ∧ 0 ≤ 3 ≤ f_size scenario_file - 8
  ∧ ∃ i s,
      fs (os scenario_boot) !! "data.bin" = Some i
      ∧ f_size scenario_file = Z.of_nat (length (contents i))
      ∧ read linux_x86_64 0 scenario_file 3 None scenario_open
        = Ok (true,
              Some (int64_of_bytes (endian linux_x86_64)
                      (take 8 (drop (Z.to_nat 3) (contents i)))))
             s.
Proof.
  assert (sane (os scenario_boot)) as H1 by (by apply boot_one_file_sane).
  assert (0 ≤ 3 ≤ f_size scenario_file - 8) as H4
    by (vm_compute; split; congruence).
  split; [exact H1|]. split; [reflexivity|].
  split; [exact scenario_open_file|]. split; [exact H4|].
  exact (open_then_read linux_x86_64 0 "data.bin" scenario_boot scenario_file
           scenario_open 3 None H1 eq_refl scenario_open_file H4).
Defined.

(** ** Handles that open_file leaves open *)

(** X9.  On POSIX, when [stat64] and [open] succeed and [mmap] fails
    (the file is empty or not regular, or the address space has no
    room), [open_file] returns the null pointer without closing the
    descriptor: the caller gets no [file], and the descriptor table has
    one entry more. *)
Theorem posix_failed_mmap_leaks_descriptor T path i st :
  platform_of T = Posix →
  fs (os st) !! path = Some i →
  readable i = true →
  (size (handles (os st)) < handle_limit (os st))%nat →
  cannot_map path (os st) →
  ∃ fd st',
    open_file T path st = Ok None st'
    ∧ handles (os st) !! fd = None
    ∧ handles (os st') = <[fd := OpenFile path]> (handles (os st))
    ∧ mem (os st') = mem (os st).
Proof.
  intros HT Hi Hr Hlim (j & Hj & Hcause).
  assert (j = i) as -> by congruence.
  exists (fresh (dom (handles (os st)))).
  unfold open_file. rewrite HT.
  unfold open_file_posix, bind, stat64, open_handle, mmap, ret. simpl.
  rewrite Hi. simpl. rewrite Hi, Hr. simpl.
  rewrite bool_decide_eq_true_2 by done. simpl.
  rewrite lookup_insert_eq.
  unfold map_path. simpl. rewrite Hi.
  set (len := if regular i then Z.of_nat (length (contents i)) else 0).
  assert (regular i && (0 <? len)
          && (next_map (os st) + round_up_page len <=? addr_limit (os st))
          = false) as ->.
  { subst len. destruct (regular i); [|done]. simpl.
    destruct Hcause as [?|[Hnil|Hroom]]; [done| |].
    - by rewrite Hnil.
    - rewrite (proj2 (Z.leb_gt _ _)) by lia. apply andb_false_r. }
  eexists. split; [reflexivity|].
  split; [apply not_elem_of_dom, is_fresh|done].
Qed.

Lemma posix_failed_mmap_leaks_descriptor_witness :
  let st := boot {[ "empty" := plain [] ]} in
  platform_of linux_x86_64 = Posix
  ∧ fs (os st) !! "empty" = Some (plain [])
  ∧ readable (plain []) = true
  ∧ (size (handles (os st)) < handle_limit (os st))%nat
  ∧ cannot_map "empty" (os st)
  ∧ ∃ fd st',
      open_file linux_x86_64 "empty" st = Ok None st'
      ∧ handles (os st) !! fd = None
      ∧ handles (os st') = <[fd := OpenFile "empty"]> (handles (os st))
      ∧ mem (os st') = mem (os st).
Proof.
  intros st.
  assert (fs (os st) !! "empty" = Some (plain [])) as H2 by reflexivity.
  assert (size (handles (os st)) < handle_limit (os st))%nat as H4
    by (vm_compute; lia).
  assert (cannot_map "empty" (os st)) as H5
    by (exists (plain []); split; [reflexivity|right; by left]).
  split; [reflexivity|]. split; [exact H2|]. split; [reflexivity|].
  split; [exact H4|]. split; [exact H5|].
  exact (posix_failed_mmap_leaks_descriptor linux_x86_64 "empty" (plain []) st
           eq_refl H2 eq_refl H4 H5).
Defined.

(** X10.  On Windows a successful [open_file] has closed the file
    handle it got from [CreateFile]: compared with the table before the
    call, the one new handle is the mapping object that the
    [windows_file] holds in [win_handle]. *)
Theorem windows_open_file_keeps_mapping_object_only T path st f st' :
  platform_of T = Windows →
  sane (os st) →
  open_file T path st = Ok (Some f) st' →
  ∃ hmap,
    f_kind f = windows_file hmap
    ∧ handles (os st) !! hmap = None
    ∧ handles (os st') = <[hmap := FileMapping path]> (handles (os st))
    ∧ size (handles (os st')) = S (size (handles (os st))).
Proof.
  intros HT Hsane Hopen.
  destruct (open_file_Some T path st f st' Hsane Hopen)
    as (i & _ & _ & _ & Hholds).
  unfold holds_handle in Hholds. rewrite HT in Hholds.
  destruct Hholds as (hmap & Hkind & Hfresh & Hh).
  exists hmap. split_and!; [done..|].
  rewrite Hh. by apply map_size_insert_None.
Qed.

Lemma windows_open_file_keeps_mapping_object_only_witness :
  platform_of windows_x64 = Windows
  ∧ sane (os (boot {[ "pack.idx" := plain two_pages ]}))
  ∧ open_file windows_x64 "pack.idx" (boot {[ "pack.idx" := plain two_pages ]})
    = Ok (Some wpack_file) wpack_ready
  ∧ ∃ hmap,
      f_kind wpack_file = windows_file hmap
      ∧ handles (os (boot {[ "pack.idx" := plain two_pages ]})) !! hmap = None
      ∧ handles (os wpack_ready)
        = <[hmap := FileMapping "pack.idx"]>
            (handles (os (boot {[ "pack.idx" := plain two_pages ]})))
      ∧ size (handles (os wpack_ready))
        = S (size (handles (os (boot {[ "pack.idx" := plain two_pages ]})))).
Proof.
  assert (sane (os (boot {[ "pack.idx" := plain two_pages ]}))) as H2
    by (apply boot_one_file_sane; vm_compute; reflexivity).
  split; [reflexivity|]. split; [exact H2|].
  split; [exact wpack_open_file|].
  exact (windows_open_file_keeps_mapping_object_only windows_x64 "pack.idx"
           _ wpack_file wpack_ready eq_refl H2 wpack_open_file).
Defined.

(** X11.  On Windows, when [CreateFileMapping] fails (the file is
    empty, or the handle table has no second free entry), [open_file]
    returns the null pointer without closing the file handle from
    [CreateFile]. *)
Theorem windows_failed_mapping_object_leaks_file_handle T path i st :
  platform_of T = Windows →
  fs (os st) !! path = Some i →
  readable i = true →
  regular i = true →
  (size (handles (os st)) < handle_limit (os st))%nat →
  contents i = [] ∨ (handle_limit (os st) ≤ S (size (handles (os st))))%nat →
  ∃ h st',
    open_file T path st = Ok None st'
    ∧ handles (os st) !! h = None
    ∧ handles (os st') = <[h := OpenFile path]> (handles (os st)).
Proof.
  intros HT Hi Hr Hreg Hlim Hcause.
  destruct (open_file_windows_no_mapping_object path i st Hi Hr Hreg Hlim Hcause)
    as (st' & Hopen & Hh).
  exists (fresh (dom (handles (os st)))), st'.
  unfold open_file. rewrite HT.
  split_and!; [done| |done]. apply not_elem_of_dom, is_fresh.
Qed.

Lemma windows_failed_mapping_object_leaks_file_handle_witness :
  let st := boot {[ "empty" := plain [] ]} in
  platform_of windows_x64 = Windows
  ∧ fs (os st) !! "empty" = Some (plain [])
  ∧ readable (plain []) = true
  ∧ regular (plain []) = true
  ∧ (size (handles (os st)) < handle_limit (os st))%nat
  ∧ (contents (plain []) = []
     ∨ (handle_limit (os st) ≤ S (size (handles (os st))))%nat)
  ∧ ∃ h st',
      open_file windows_x64 "empty" st = Ok None st'
      ∧ handles (os st) !! h = None
      ∧ handles (os st') = <[h := OpenFile "empty"]> (handles (os st)).
Proof.
  intros st.
  assert (fs (os st) !! "empty" = Some (plain [])) as H2 by reflexivity.
  assert (size (handles (os st)) < handle_limit (os st))%nat as H5
    by (vm_compute; lia).
  assert (contents (plain []) = []
          ∨ (handle_limit (os st) ≤ S (size (handles (os st))))%nat) as H6
    by (by left).
  split; [reflexivity|]. split; [exact H2|]. split; [reflexivity|].
  split; [reflexivity|]. split; [exact H5|]. split; [exact H6|].
  exact (windows_failed_mapping_object_leaks_file_handle windows_x64 "empty"
           (plain []) st eq_refl H2 eq_refl eq_refl H5 H6).
Defined.

(** ** Destroying a file *)

Lemma over_range_unmap_lookup addr n m x :
  over_range None addr n m !! x
  = if decide (addr ≤ x < addr + Z.of_nat n) then None else m !! x.
Proof.
  revert addr. induction n as [|n IH]; intros addr.
  - simpl. case_decide; [lia|done].
  - cbn [over_range]. rewrite lookup_delete, IH.
    repeat case_decide; try done; lia.
Qed.

Lemma back_cells_outside base bs m x :
  x < base ∨ base + Z.of_nat (length bs) ≤ x →
  back_cells base bs m !! x = m !! x.
Proof.
  revert base. induction bs as [|b bs IH]; intros base Hx; [done|].
  cbn [back_cells length] in *. rewrite lookup_insert_ne by lia.
  apply IH. lia.
Qed.

(** Unmapping the range that was mapped gives back the address space
    there was before, if nothing was mapped in that range. *)
Lemma unmap_back_cells base bs m :
  (∀ a, base ≤ a → m !! a = None) →
  over_range None base (length bs) (back_cells base bs m) = m.
Proof.
  intros Hfree. apply map_eq. intros x.
  rewrite over_range_unmap_lookup. case_decide as Hx.
  - symmetry. apply Hfree. lia.
  - apply back_cells_outside. lia.
Qed.

Lemma span_of_nonneg i : 0 ≤ span_of i.
Proof.
  unfold span_of. pose proof (round_up_page_ge (Z.of_nat (length (contents i)))).
  lia.
Qed.

(** X12.  [delete f] undoes the mapping that [open_file] made: after
    it the address space and the table of mappings are what they were
    before [open_file] was called (nothing of the file is mapped any
    more), on both builds; on Windows the handle table is back as well,
    the mapping object having been closed. *)
Theorem delete_undoes_mapping T path st f st' :
  sane (os st) →
  vacant (os st) →
  open_file T path st = Ok (Some f) st' →
  ∃ st'',
    delete_file f st' = Ok tt st''
    ∧ mem (os st'') = mem (os st)
    ∧ views (os st'') = views (os st)
    ∧ (platform_of T = Windows → handles (os st'') = handles (os st)).
Proof.
  intros Hsane [Hfree Hview] Hopen.
  destruct (open_file_Some T path st f st' Hsane Hopen)
    as (i & _ & _ & Hmaps & Hholds).
  pose proof (span_of_nonneg i) as Hspan.
  assert (over_range None (f_data f) (Z.to_nat (span_of i)) (mem (os st'))
          = mem (os st)) as Hmem.
  { rewrite (maps_mem _ _ _ _ Hmaps), (maps_data _ _ _ _ Hmaps).
    rewrite <- (length_resize (contents i) (Z.to_nat (span_of i)) 0) at 1.
    by apply unmap_back_cells. }
  assert (delete (f_data f) (views (os st')) = views (os st)) as Hviews.
  { rewrite (maps_views _ _ _ _ Hmaps), (maps_data _ _ _ _ Hmaps).
    by apply delete_insert_id. }
  unfold holds_handle in Hholds. unfold delete_file.
  destruct (platform_of T).
  - destruct Hholds as (-> & _).
    unfold munmap, modify. eexists. split; [reflexivity|]. simpl.
    rewrite (maps_size _ _ _ _ Hmaps). fold (span_of i).
    by rewrite Hmem, Hviews.
  - destruct Hholds as (hmap & -> & Hfresh & Hh).
    assert (views (os st') !! f_data f = Some (span_of i)) as Hlook.
    { rewrite (maps_views _ _ _ _ Hmaps), (maps_data _ _ _ _ Hmaps).
      apply lookup_insert_eq. }
    unfold bind, UnmapViewOfFile, CloseHandle, modify. rewrite Hlook.
    eexists. split; [reflexivity|]. simpl. rewrite Hmem, Hviews.
    split_and!; [done..|].
    intros _. rewrite Hh. by apply delete_insert_id.
Qed.

Lemma boot_vacant files : vacant (os (boot files)).
Proof. by split. Qed.

Lemma delete_undoes_mapping_witness :
  sane (os (boot {[ "pack.idx" := plain two_pages ]}))
  ∧ vacant (os (boot {[ "pack.idx" := plain two_pages ]}))
  ∧ open_file windows_x64 "pack.idx" (boot {[ "pack.idx" := plain two_pages ]})
    = Ok (Some wpack_file) wpack_ready
  ∧ ∃ st'',
      delete_file wpack_file wpack_ready = Ok tt st''
      ∧ mem (os st'') = mem (os (boot {[ "pack.idx" := plain two_pages ]}))
      ∧ views (os st'') = views (os (boot {[ "pack.idx" := plain two_pages ]}))
      ∧ (platform_of windows_x64 = Windows →
         handles (os st'')
         = handles (os (boot {[ "pack.idx" := plain two_pages ]}))).
Proof.
  assert (sane (os (boot {[ "pack.idx" := plain two_pages ]}))) as H1
    by (apply boot_one_file_sane; vm_compute; reflexivity).
  split; [exact H1|]. split; [apply boot_vacant|].
  split; [exact wpack_open_file|].
  exact (delete_undoes_mapping windows_x64 "pack.idx" _ wpack_file wpack_ready
           H1 (boot_vacant _) wpack_open_file).
Defined.

(** ** What main returns *)



(** ** What the driver loop prints *)

Lemma read_returns_shape T restarts f offset st r st' :
  read T restarts f offset None st = Ok r st' →
  printed st' = printed st
  ∧ ((∃ v, r = (true, Some v)) ∨ r = (false, None)).
Proof.
  intros Hread.
  apply read_returns in Hread
    as (_ & _ & [(bs & _ & -> & ->)|(_ & _ & -> & ->)]);
    (split; [unfold disarmed, armed, printed; by destruct (platform_of T)|]);
    eauto.
Qed.



Lemma printed_print l st : printed (log (EvPrint l) st) = l :: printed st.
Proof. reflexivity. Qed.

Lemma printed_syscalls st st' :
  only_syscalls st st' → printed st' = printed st.
Proof.
  intros [_ _ _ (new & Htrace & _ & Hall)]. unfold printed. rewrite Htrace.
  clear Htrace. induction Hall as [|e new He _ IH]; [done|].
  simpl. by destruct e.
Qed.

Lemma installed_printed T st :
  printed (installed T st) = printed st ∧ tls (installed T st) = tls st.
Proof.
  unfold installed, install_signal_handlers. by destruct (platform_of T).
Qed.

Lemma main_loop_on_mapped T restarts f (bytes : list Z) draws st :
  mapped_at (mem (os st)) (f_data f) bytes →
  f_size f = Z.of_nat (length bytes) →
  0 ≤ f_data f →
  f_data f + f_size f ≤ two64 →
  sigbus_jmp_set (tls st) = false →
  Forall (λ d, 0 ≤ d ≤ f_size f - 8) draws →
  ∃ st',
    main_loop T restarts f draws st = Ok tt st'
    ∧ printed st' = reverse (line_at T bytes <$> draws) ++ printed st.
Proof.
  intros Hmapped Hsize Hbase Htop. revert st Hmapped.
  induction draws as [|d draws IH]; intros st Hmapped Hflag Hdraws.
  - by exists st.
  - apply Forall_cons in Hdraws as [Hd Hdraws].
    assert (size_t_wrap d = d) as Hwrap
      by (unfold size_t_wrap; apply Z.mod_small; lia).
    assert (read T restarts f d None st
            = Ok (true, Some (int64_of_bytes (endian T)
                                (take 8 (drop (Z.to_nat d) bytes))))
                 (disarmed T (log (EvLoad (ptr_add (f_data f) d)) (armed T st))))
      as Hread.
    { apply read_loaded; [|done|].
      - unfold in_bounds, size_t_wrap, sizeof_int64_t.
        rewrite Z.mod_small by lia. apply Z.leb_le. lia.
      - unfold ptr_add, size_t_wrap. rewrite Z.mod_small by lia.
        rewrite <- (Z2Nat.id d) at 1 by lia.
        apply fetch_window; [done|lia]. }
    pose proof (read_returns_disarmed _ _ _ _ _ _ _ _ Hflag Hread) as Hflag'.
    pose proof (read_returns_os _ _ _ _ _ _ _ _ Hread) as Hos.
    destruct (read_returns_shape _ _ _ _ _ _ _ Hread) as [Hprinted _].
    cbn [main_loop]. rewrite Hwrap. unfold bind at 1. rewrite Hread.
    unfold bind at 1. unfold print, modify.
    edestruct IH as (st' & Hloop & Hlines); [| |done|].
    3:{ exists st'. split; [exact Hloop|].
        rewrite Hlines, fmap_cons, reverse_cons, <- app_assoc.
        f_equal. rewrite printed_print, Hprinted. done. }
    + simpl. by rewrite Hos.
    + done.
Qed.

(** X15.  The whole program on a file that stays as it is.  Given the
    path of a mappable file of eight bytes or more and enough free
    handles, [main] installs the handler, opens the file and, for draws
    within [0, size - 8], prints the 64-bit value at each drawn offset,
    in the order of the draws, and is still running after the last
    one. *)
Theorem run_prints_the_values T restarts prog path i draws st :
  sane (os st) →
  sigbus_jmp_set (tls st) = false →
  mappable path i (os st) →
  (size (handles (os st)) + handles_needed T ≤ handle_limit (os st))%nat →
  Forall (λ d, 0 ≤ d ≤ Z.of_nat (length (contents i)) - 8) draws →
  ∃ st',
    run T restarts 2 [prog; path] draws st = Ok None st'
    ∧ printed st' = reverse (line_at T (contents i) <$> draws) ++ printed st.
Proof.
  intros Hsane Hflag Hmappable Hfree Hdraws.
  pose proof (installed_sane T st Hsane) as Hsane0.
  destruct (installed_kernel T st) as (Hfs & Hh & Hhl & _ & Hnext & Hlim).
  destruct (installed_printed T st) as [Hprinted0 Htls0].
  assert (∃ f st1, open_file T path (installed T st) = Ok (Some f) st1)
    as (f & st1 & Hopen).
  { apply (open_file_mappable T path i); [done| |by rewrite Hh, Hhl].
    unfold mappable in *. by rewrite Hfs, Hnext, Hlim. }
  destruct (open_file_Some T path _ f st1 Hsane0 Hopen)
    as (j & (Hj & _ & _ & _ & Hfit) & _ & Hmaps & _).
  assert (j = i) as ->
    by (destruct Hmappable as [Hi _]; rewrite Hfs in Hj; congruence).
  destruct (open_file_total T path _ Hsane0)
    as (r & s & Heq & Hcalls & _ & _).
  rewrite Hopen in Heq. injection Heq as <- <-.
  pose proof (printed_syscalls _ _ Hcalls) as Hprinted1.
  pose proof (round_up_page_ge (Z.of_nat (length (contents i)))) as Hup.
  destruct Hsane0 as [Hlow Hhigh _ _]. unfold page_size in Hlow.
  destruct (main_loop_on_mapped T restarts f (contents i) draws st1)
    as (st' & Hloop & Hlines).
  - by eapply maps_file_mapped.
  - by apply (maps_size _ _ _ _ Hmaps).
  - rewrite (maps_data _ _ _ _ Hmaps). lia.
  - rewrite (maps_data _ _ _ _ Hmaps), (maps_size _ _ _ _ Hmaps). lia.
  - by rewrite (maps_tls _ _ _ _ Hmaps), Htls0.
  - by rewrite (maps_size _ _ _ _ Hmaps).
  - exists st'. split.
    + unfold run, main. simpl.
      unfold bind at 1. rewrite install_signal_handlers_Ok.
      unfold bind at 1. rewrite Hopen.
      unfold bind at 1. unfold member_size, ret.
      unfold bind at 1 2. by rewrite Hloop.
    + by rewrite Hlines, Hprinted1, Hprinted0.
Qed.

Lemma run_prints_the_values_witness :
  sane (os scenario_boot)
  ∧ sigbus_jmp_set (tls scenario_boot) = false
  ∧ mappable "data.bin" (plain forty_two) (os scenario_boot)
  ∧ (size (handles (os scenario_boot)) + handles_needed linux_x86_64
     ≤ handle_limit (os scenario_boot))%nat
  ∧ Forall (λ d, 0 ≤ d ≤ Z.of_nat (length (contents (plain forty_two))) - 8)
      [0; 8; 3]
  ∧ ∃ st',
      run linux_x86_64 0 2 ["prog"; "data.bin"] [0; 8; 3] scenario_boot
      = Ok None st'
      ∧ printed st'
        = reverse (line_at linux_x86_64 (contents (plain forty_two))
                     <$> [0; 8; 3])
          ++ printed scenario_boot.
Proof.
  assert (sane (os scenario_boot)) as H1 by (by apply boot_one_file_sane).
  assert (mappable "data.bin" (plain forty_two) (os scenario_boot)) as H3
    by (split_and!; [reflexivity..|done|vm_compute; congruence]).
  assert (size (handles (os scenario_boot)) + handles_needed linux_x86_64
          ≤ handle_limit (os scenario_boot))%nat as H4 by (vm_compute; lia).
  assert (Forall (λ d, 0 ≤ d ≤ Z.of_nat (length (contents (plain forty_two))) - 8)
            [0; 8; 3]) as H5
    by (repeat constructor; vm_compute; congruence).
  split; [exact H1|]. split; [reflexivity|]. split; [exact H3|].
  split; [exact H4|]. split; [exact H5|].
  exact (run_prints_the_values linux_x86_64 0 "prog" "data.bin"
           (plain forty_two) [0; 8; 3] scenario_boot H1 eq_refl H3 H4 H5).
Defined.

(** The lines of that run, newest first. *)
Example run_scenario_output :
  printed (state_of (run linux_x86_64 0 2 ["prog"; "data.bin"] [0; 8; 3]
                       scenario_boot))
  = [Number 0; Number 0; Number 42].
Proof. vm_compute. reflexivity. Qed.

(** ** The two drivers *)

Lemma naive_read_state T restarts f offset st v st' :
  sigbus_jmp_set (tls st) = false →
  Naive.read T restarts f offset st = Ok v st' →
  st' = log (EvLoad (ptr_add (f_data f) offset)) st.
Proof.
  intros Hflag Hread.
  destruct (naive_read_returns _ _ _ _ _ _ _ Hflag Hread)
    as (Hb & bs & Hfetch & ->).
  rewrite (naive_read_loaded _ _ _ _ _ _ Hb Hfetch) in Hread.
  by injection Hread as <-.
Qed.

Lemma guarded_loop_follows_naive T restarts f draws sn sg sn' :
  sigbus_jmp_set (tls sn) = false →
  sigbus_jmp_set (tls sg) = false →
  os sg = os sn →
  printed sg = printed sn →
  Naive.main_loop T restarts f draws sn = Ok tt sn' →
  ∃ sg', main_loop T restarts f draws sg = Ok tt sg'
         ∧ printed sg' = printed sn'.
Proof.
  revert sn sg. induction draws as [|d draws IH];
    intros sn sg Hn Hg Hos Hprinted.
  - intros [= <-]. by exists sg.
  - cbn [Naive.main_loop main_loop]. unfold bind at 1.
    destruct (Naive.read T restarts f (size_t_wrap d) sn) as [v s| | |]
      eqn:Hnaive; [|done..].
    pose proof (naive_read_state _ _ _ _ _ _ _ Hn Hnaive) as ->.
    destruct (naive_read_returns _ _ _ _ _ _ _ Hn Hnaive)
      as (Hb & bs & Hfetch & ->).
    unfold bind at 1. unfold print, modify. intros Hloop.
    rewrite <- Hos in Hfetch.
    pose proof (read_loaded T restarts f _ None sg bs Hb Hg Hfetch) as Hread.
    pose proof (read_returns_disarmed _ _ _ _ _ _ _ _ Hg Hread) as Hg'.
    pose proof (read_returns_os _ _ _ _ _ _ _ _ Hread) as Hos'.
    destruct (read_returns_shape _ _ _ _ _ _ _ Hread) as [Hprinted' _].
    unfold bind at 1. rewrite Hread. unfold bind at 1.
    eapply IH; [| | | |exact Hloop]; try done.
    + simpl. by rewrite Hos'.
    + rewrite !printed_print, Hprinted', Hprinted. done.
Qed.

(** X16.  The guarded driver against the naive one.  Whenever the
    naive loop gets through a sequence of draws without the process
    ending, the guarded loop, started in the same state, gets through it
    too and has printed exactly the same lines. *)
Theorem guarded_driver_refines_naive T restarts f draws st sn :
  sigbus_jmp_set (tls st) = false →
  Naive.main_loop T restarts f draws st = Ok tt sn →
  ∃ sg, main_loop T restarts f draws st = Ok tt sg
        ∧ printed sg = printed sn.
Proof.
  intros Hflag Hnaive.
  by apply (guarded_loop_follows_naive T restarts f draws st st sn).
Qed.

Lemma guarded_driver_refines_naive_witness :
  sigbus_jmp_set (tls scenario_open) = false
  ∧ Naive.main_loop linux_x86_64 0 scenario_file [0; 8; 3] scenario_open
    = Ok tt (state_of (Naive.main_loop linux_x86_64 0 scenario_file [0; 8; 3]
                         scenario_open))
  ∧ ∃ sg, main_loop linux_x86_64 0 scenario_file [0; 8; 3] scenario_open
          = Ok tt sg
          ∧ printed sg
            = printed (state_of (Naive.main_loop linux_x86_64 0 scenario_file
                                   [0; 8; 3] scenario_open)).
Proof.
  assert (sigbus_jmp_set (tls scenario_open) = false) as H1
    by (vm_compute; reflexivity).
  assert (value_of (Naive.main_loop linux_x86_64 0 scenario_file [0; 8; 3]
                      scenario_open) = Some tt) as H0
    by (vm_compute; reflexivity).
  pose proof (value_of_Some _ _ H0) as H2.
  split; [exact H1|]. split; [exact H2|].
  exact (guarded_driver_refines_naive linux_x86_64 0 scenario_file [0; 8; 3]
           scenario_open _ H1 H2).
Defined.

(** X17.  The naive program has no recovery.  With SIGBUS at its
    default disposition (the naive [main] installs nothing), a read whose
    storage is gone kills the process with SIGBUS in the middle of the
    round: the line of that round is not printed and the remaining draws
    are never read. *)
Theorem naive_driver_dies_on_lost_storage T restarts f d draws st :
  platform_of T = Posix →
  sigbus_action (os st) = SIG_DFL →
  in_bounds f (size_t_wrap d) = true →
  fetch (mem (os st)) (ptr_add (f_data f) (size_t_wrap d)) 8 = Faulted BusError →
  ∃ s,
    Naive.main_loop T restarts f (d :: draws) st
    = Terminated (Signalled SIGBUS) s
    ∧ printed s = printed st.
Proof.
  unfold in_bounds. intros HT Hact Hb Hfetch.
  cbn [Naive.main_loop]. unfold bind at 1.
  unfold Naive.read, bind, assert. rewrite Hb.
  unfold load_int64, load_from, load_once, deliver. simpl.
  rewrite Hfetch, HT, Hact. eauto.
Qed.

Lemma naive_driver_dies_on_lost_storage_witness :
  platform_of linux_x86_64 = Posix
  ∧ sigbus_action (os scenario_lost) = SIG_DFL
  ∧ in_bounds scenario_file (size_t_wrap 8) = true
  ∧ fetch (mem (os scenario_lost))
      (ptr_add (f_data scenario_file) (size_t_wrap 8)) 8 = Faulted BusError
  ∧ ∃ s,
      Naive.main_loop linux_x86_64 0 scenario_file [8; 0] scenario_lost
      = Terminated (Signalled SIGBUS) s
      ∧ printed s = printed scenario_lost.
Proof.
  assert (sigbus_action (os scenario_lost) = SIG_DFL) as H2
    by (vm_compute; reflexivity).
  assert (in_bounds scenario_file (size_t_wrap 8) = true) as H3
    by (vm_compute; reflexivity).
  assert (fetch (mem (os scenario_lost))
            (ptr_add (f_data scenario_file) (size_t_wrap 8)) 8
          = Faulted BusError) as H4 by (vm_compute; reflexivity).
  split; [reflexivity|]. split; [exact H2|]. split; [exact H3|].
  split; [exact H4|].
  exact (naive_driver_dies_on_lost_storage linux_x86_64 0 scenario_file 8 [0]
           scenario_lost eq_refl H2 H3 H4).
Defined.

(** ** The output of the driver loop *)

(** X18.  With the handler in place, the driver loop gets through any
    sequence of draws that are in bounds and fall on mapped addresses,
    however many of them meet lost storage and however often in a row:
    it prints, in order, the value for each load that succeeded and
    "Failed to read" for each that faulted. *)
Theorem driver_loop_output T restarts f draws st :
  sigbus_jmp_set (tls st) = false →
  handler_ready T st →
  Forall (harmless (os st) f) draws →
  ∃ st',
    main_loop T restarts f draws st = Ok tt st'
    ∧ printed st' = reverse (line_of T (os st) f <$> draws) ++ printed st.
Proof.
  revert st. induction draws as [|d draws IH]; intros st Hflag Hready Hdraws.
  - by exists st.
  - apply Forall_cons in Hdraws as [[Hb Hmapped] Hdraws].
    pose proof (read_cases T restarts f (size_t_wrap d) None st Hflag Hready)
      as Hread.
    rewrite Hb in Hread.
    assert (∃ r s l,
              read T restarts f (size_t_wrap d) None st = Ok r s
              ∧ l = line_of T (os st) f d
              ∧ main_loop T restarts f (d :: draws) st
                = main_loop T restarts f draws (log (EvPrint l) s))
      as (r & s & l & Hr & Hl & Hround).
    { unfold line_of. cbn [main_loop]. unfold bind at 1.
      destruct (fetch _ _ _) as [bs|[]]; [| |done]; rewrite Hread;
        eexists _, _, _; (split; [reflexivity|]); split; reflexivity. }
    pose proof (read_returns_disarmed _ _ _ _ _ _ _ _ Hflag Hr) as Hflag'.
    pose proof (read_returns_os _ _ _ _ _ _ _ _ Hr) as Hos.
    destruct (read_returns_shape _ _ _ _ _ _ _ Hr) as [Hprinted _].
    destruct (IH (log (EvPrint l) s)) as (st' & Hloop & Hlines).
    + done.
    + intros HT. simpl. rewrite Hos. by apply Hready.
    + simpl. by rewrite Hos.
    + exists st'. rewrite Hround. split; [done|].
      rewrite Hlines, fmap_cons, reverse_cons, <- app_assoc.
      simpl. rewrite Hos, printed_print, Hprinted, Hl. done.
Qed.

Lemma driver_loop_output_witness :
  sigbus_jmp_set (tls pack_truncated) = false
  ∧ handler_ready linux_x86_64 pack_truncated
  ∧ Forall (harmless (os pack_truncated) pack_file) [4096; 4096; 0; 4096]
  ∧ ∃ st',
      main_loop linux_x86_64 0 pack_file [4096; 4096; 0; 4096] pack_truncated
      = Ok tt st'
      ∧ printed st'
        = reverse (line_of linux_x86_64 (os pack_truncated) pack_file
                     <$> [4096; 4096; 0; 4096])
          ++ printed pack_truncated.
Proof.
  assert (sigbus_jmp_set (tls pack_truncated) = false) as H1
    by (vm_compute; reflexivity).
  assert (handler_ready linux_x86_64 pack_truncated) as H2
    by (intros _; vm_compute; reflexivity).
  assert (harmless (os pack_truncated) pack_file 4096) as Hlost
    by (split; [vm_compute; reflexivity|vm_compute; discriminate]).
  assert (harmless (os pack_truncated) pack_file 0) as Hthere
    by (split; [vm_compute; reflexivity|vm_compute; discriminate]).
  assert (Forall (harmless (os pack_truncated) pack_file) [4096; 4096; 0; 4096])
    as H3 by (repeat (apply Forall_cons_2; [assumption|]); apply Forall_nil_2).
  split; [exact H1|]. split; [exact H2|]. split; [exact H3|].
  exact (driver_loop_output linux_x86_64 0 pack_file [4096; 4096; 0; 4096]
           pack_truncated H1 H2 H3).
Defined.

(** The lines of that run, newest first. *)
Example driver_loop_output_lines :
  printed (state_of (main_loop linux_x86_64 0 pack_file [4096; 4096; 0; 4096]
                       pack_truncated))
  = [Text "Failed to read"; Number 0x0707070707070707;
     Text "Failed to read"; Text "Failed to read"].
Proof. vm_compute. reflexivity. Qed.
